(** * An expiring state cache backed by a min-heap

    Shallow embedding of [cache_with_expiry_heap/state_cache.go]: the
    [expirationQueue] methods, the [container/heap] functions the cache
    drives them with, and the cache operations [Set], [Get], [Shutdown]
    and [clean].

    Conventions of the embedding.
    - [time.Now().Unix()] is an explicit argument [now] of every operation
      that reads the clock.
    - [*itemExpiry] values are addresses into an object store ([objs]); the
      queue and [expiryMap] hold addresses, so that a write through one of
      them is seen through the other exactly as in the Go program.
    - Slice indices are Go [int]s, modelled as [Z].  Every index the heap
      computes is below [2 * len + 3], so 64-bit wrap-around of an index
      does not occur and is not modelled; timestamps are [int64] values
      computed from caller input and wrap explicitly ([wrap64]).
    - A run-time panic is a result of its own ([Panic]); the loops of
      [container/heap] and of [clean] carry a fuel argument and the
      wrappers supply enough of it ([OutOfFuel] is never returned on the
      states the cache can reach).
    - The mutex, the ticker goroutine and logging are not part of the
      model: operations are the atomic sections the lock delimits. *)

From Stdlib Require Import ZArith Lia String List SpecFloat.
From stdpp Require Import base gmap list strings pretty.

Open Scope Z_scope.

(** ** Machine integers and durations *)

Definition wrap64 (z : Z) : Z := (z + 2 ^ 63) mod 2 ^ 64 - 2 ^ 63.

Definition in_int64 (z : Z) : Prop := - 2 ^ 63 <= z < 2 ^ 63.

(** [time.Duration] is an [int64] count of nanoseconds. *)
Definition Millisecond : Z := 1000000.
Definition Second : Z := 1000000000.

(** [float64(z)] for an integer [z], rounded to nearest even. *)
Definition float64_of_int (z : Z) : spec_float :=
  binary_normalize 53 1024 z 0 false.

(** [int64(f)]: truncation toward zero.  The conversion of a value that
    does not fit is implementation-specific in Go; amd64 yields the
    smallest [int64].  It cannot happen for the seconds of a duration. *)
Definition int64_of_float64 (f : spec_float) : Z :=
  match f with
  | S754_zero _ => 0
  | S754_finite s m e =>
      let mag := if 0 <=? e then Z.pos m * 2 ^ e else Z.pos m / 2 ^ (- e) in
      if (mag <? 2 ^ 63) then (if s then - mag else mag) else - 2 ^ 63
  | _ => - 2 ^ 63
  end.

(** [func (d Duration) Seconds() float64]:
    [sec := d / Second; nsec := d % Second;
     return float64(sec) + float64(nsec)/1e9]. *)
Definition Seconds (d : Z) : spec_float :=
  let sec := Z.quot d Second in
  let nsec := Z.rem d Second in
  SFadd 53 1024 (float64_of_int sec)
        (SFdiv 53 1024 (float64_of_int nsec) (float64_of_int 1000000000)).

(** [int64(lifespan.Seconds())], as [Set] computes it. *)
Definition lifespanSeconds (lifespan : Z) : Z :=
  int64_of_float64 (Seconds lifespan).

(** ** Data *)

Record MyState := { Id : string; Values : list Z }.

Record cachedItem := {
  stateObject : option MyState;   (* *MyState, [None] is nil *)
  cachedAt : Z;
  expiresAt : Z
}.

Record itemExpiry := {
  itemKey : string;
  unixExpiryTime : Z;
  index : Z
}.

(** Address of an [itemExpiry] object. *)
Definition loc := positive.

Definition withIndex (e : itemExpiry) (i : Z) : itemExpiry :=
  {| itemKey := itemKey e; unixExpiryTime := unixExpiryTime e; index := i |}.

Definition withExpiry (e : itemExpiry) (t : Z) : itemExpiry :=
  {| itemKey := itemKey e; unixExpiryTime := t; index := index e |}.

(** What the queue methods read and write: the slice [*q] and the objects
    its elements point to. *)
Record qstate := {
  objs : gmap loc itemExpiry;
  queue : list loc
}.

(** ** Results and the state-and-panic monad of the queue code *)

Inductive result (A : Type) : Type :=
| Ok (a : A)
| Panic (msg : string)
| OutOfFuel.
Arguments Ok {A} a.
Arguments Panic {A} msg.
Arguments OutOfFuel {A}.

Definition M (A : Type) : Type := qstate -> result A * qstate.

Definition ret {A} (a : A) : M A := fun s => (Ok a, s).

Definition bind {A B} (m : M A) (f : A -> M B) : M B :=
  fun s =>
    match m s with
    | (Ok a, s') => f a s'
    | (Panic msg, s') => (Panic msg, s')
    | (OutOfFuel, s') => (OutOfFuel, s')
    end.

Notation "'do' x <- m ; k" := (bind m (fun x => k))
  (at level 10, x name, m at level 100, k at level 200).
Notation "'do_' m ; k" := (bind m (fun _ => k))
  (at level 10, m at level 100, k at level 200).

(** Indexing a slice with a Go [int]: out of range panics. *)
Definition lookupZ {A} (l : list A) (i : Z) : option A :=
  if i <? 0 then None else l !! Z.to_nat i.

Definition elemAt (i : Z) : M loc :=
  fun s =>
    match lookupZ (queue s) i with
    | Some p => (Ok p, s)
    | None => (Panic "index out of range", s)
    end.

Definition storeAt (i : Z) (p : loc) : M unit :=
  fun s =>
    match lookupZ (queue s) i with
    | Some _ => (Ok tt, {| objs := objs s; queue := <[Z.to_nat i := p]> (queue s) |})
    | None => (Panic "index out of range", s)
    end.

Definition load (p : loc) : M itemExpiry :=
  fun s =>
    match objs s !! p with
    | Some e => (Ok e, s)
    | None => (Panic "nil pointer dereference", s)
    end.

Definition setIndex (p : loc) (i : Z) : M unit :=
  fun s =>
    match objs s !! p with
    | Some e => (Ok tt, {| objs := <[p := withIndex e i]> (objs s); queue := queue s |})
    | None => (Panic "nil pointer dereference", s)
    end.

Definition setExpiry (p : loc) (t : Z) : M unit :=
  fun s =>
    match objs s !! p with
    | Some e => (Ok tt, {| objs := <[p := withExpiry e t]> (objs s); queue := queue s |})
    | None => (Panic "nil pointer dereference", s)
    end.

(** ** The [expirationQueue] methods ([heap.Interface]) *)

Module expirationQueue.

Definition Len : M Z := fun s => (Ok (Z.of_nat (length (queue s))), s).

Definition Less (i j : Z) : M bool :=
  do pi <- elemAt i;
  do ei <- load pi;
  do pj <- elemAt j;
  do ej <- load pj;
  ret (unixExpiryTime ei <? unixExpiryTime ej).

Definition Swap (i j : Z) : M unit :=
  do pj <- elemAt j;
  do pi <- elemAt i;
  do_ storeAt i pj;
  do_ storeAt j pi;
  do a <- elemAt i;
  do_ setIndex a i;
  do b <- elemAt j;
  setIndex b j.

Definition Push (x : loc) : M unit :=
  do n <- Len;
  do_ setIndex x n;
  fun s => (Ok tt, {| objs := objs s; queue := queue s ++ [x] |}).

(** [old[n-1] = nil] clears a slot that the re-slicing drops. *)
Definition Pop : M loc :=
  do n <- Len;
  do item <- elemAt (n - 1);
  do_ setIndex item (-1);
  fun s => (Ok item, {| objs := objs s; queue := take (Z.to_nat (n - 1)) (queue s) |}).

End expirationQueue.

(** ** [container/heap] over the queue *)

Module heap.
Import expirationQueue.

(** [for { i := (j - 1) / 2; if i == j || !h.Less(j, i) { break };
          h.Swap(i, j); j = i }] *)
Fixpoint up_loop (fuel : nat) (j : Z) : M unit :=
  match fuel with
  | O => fun s => (OutOfFuel, s)
  | S fuel' =>
      let i := Z.quot (j - 1) 2 in
      if i =? j then ret tt
      else
        do lt <- Less j i;
        if negb lt then ret tt
        else do_ Swap i j; up_loop fuel' i
  end.

Definition up (j : Z) : M unit := up_loop (S (Z.to_nat j)) j.

(** The loop of [down]; it returns the final [i]. *)
Fixpoint down_loop (fuel : nat) (i n : Z) : M Z :=
  match fuel with
  | O => fun s => (OutOfFuel, s)
  | S fuel' =>
      let j1 := 2 * i + 1 in
      if (n <=? j1) || (j1 <? 0) then ret i
      else
        let j2 := j1 + 1 in
        do r <- (if j2 <? n then Less j2 j1 else ret false);
        let j := if r then j2 else j1 in
        do lt <- Less j i;
        if negb lt then ret i
        else do_ Swap i j; down_loop fuel' j n
  end.

Definition down (i0 n : Z) : M bool :=
  do i <- down_loop (S (Z.to_nat n)) i0 n;
  ret (i0 <? i).

(** [for i := n/2 - 1; i >= 0; i-- { down(h, i, n) }] *)
Definition Init : M unit :=
  do n <- Len;
  fold_right (fun i k => do_ down (Z.of_nat i) n; k) (ret tt)
             (rev (seq 0 (Z.to_nat (Z.quot n 2)))).

Definition Push (x : loc) : M unit :=
  do_ expirationQueue.Push x;
  do n <- Len;
  up (n - 1).

Definition Pop : M loc :=
  do len <- Len;
  let n := len - 1 in
  do_ Swap 0 n;
  do_ down 0 n;
  expirationQueue.Pop.

Definition Fix (i : Z) : M unit :=
  do n <- Len;
  do moved <- down i n;
  if negb moved then up i else ret tt.

End heap.

(** ** The cache *)

Record MyStateCache := {
  items : option (gmap string cachedItem);   (* [None] is the nil map *)
  expirations : list loc;
  expiryMap : gmap string loc;
  mem : gmap loc itemExpiry;                 (* the [itemExpiry] objects *)
  cancelled : bool                           (* [cancel] has been called *)
}.

Definition qstate_of (c : MyStateCache) : qstate :=
  {| objs := mem c; queue := expirations c |}.

Definition with_qstate (c : MyStateCache) (s : qstate) : MyStateCache :=
  {| items := items c; expirations := queue s; expiryMap := expiryMap c;
     mem := objs s; cancelled := cancelled c |}.

Definition with_items (c : MyStateCache) (m : option (gmap string cachedItem))
  : MyStateCache :=
  {| items := m; expirations := expirations c; expiryMap := expiryMap c;
     mem := mem c; cancelled := cancelled c |}.

(** Run queue code on the cache's queue. *)
Definition onQueue {A} (m : M A) (c : MyStateCache) : result A * MyStateCache :=
  let '(r, s) := m (qstate_of c) in (r, with_qstate c s).

Definition NewMyStateCache : MyStateCache :=
  snd (onQueue heap.Init
         {| items := Some ∅; expirations := []; expiryMap := ∅; mem := ∅;
            cancelled := false |}).

(** [&itemExpiry{itemKey: ..., unixExpiryTime: ...}]: a fresh object whose
    [index] is zero until [Push] sets it. *)
Definition newExpiry (key : string) (expiry : Z) (c : MyStateCache)
  : loc * MyStateCache :=
  let p := fresh (dom (mem c)) in
  (p, {| items := items c; expirations := expirations c;
         expiryMap := expiryMap c;
         mem := <[p := {| itemKey := key; unixExpiryTime := expiry; index := 0 |}]> (mem c);
         cancelled := cancelled c |}).

Definition setExpiryMap (key : string) (p : loc) (c : MyStateCache) : MyStateCache :=
  {| items := items c; expirations := expirations c;
     expiryMap := <[key := p]> (expiryMap c);
     mem := mem c; cancelled := cancelled c |}.

(** [oldExpiry.unixExpiryTime = expiry;
     heap.Fix(&cache.expirations, oldExpiry.index)] *)
Definition refresh (oldExpiry : loc) (expiry : Z) : M unit :=
  do_ setExpiry oldExpiry expiry;
  do e <- load oldExpiry;
  heap.Fix (index e).

(** The branch of [Set] on [expiryMap]: an entry the map knows gets the
    new timestamp in place and [heap.Fix] at its recorded index, a key the
    map does not know gets a new entry that is pushed. *)
Definition trackExpiry (key : string) (expiry : Z) (c : MyStateCache)
  : result unit * MyStateCache :=
  match expiryMap c !! key with
  | Some oldExpiry => onQueue (refresh oldExpiry expiry) c
  | None =>
      let '(expiryEntry, c0) := newExpiry key expiry c in
      onQueue (heap.Push expiryEntry) (setExpiryMap key expiryEntry c0)
  end.

(** [Set]: the result is the returned [error] ([None] for nil), or a panic.
    ([Set] is reserved in Rocq, hence the underscore.) *)
Definition Set_ (state : option MyState) (lifespan now : Z) (c : MyStateCache)
  : result (option string) * MyStateCache :=
  match state with
  | None => (Ok (Some "cannot cache state due to nil value"%string), c)
  | Some st =>
      let cachedAt := now in
      let expiry := wrap64 (cachedAt + lifespanSeconds lifespan) in
      let '(r, c1) := trackExpiry (Id st) expiry c in
      match r with
      | Ok _ =>
          match items c1 with
          | None => (Panic "assignment to entry in nil map", c1)
          | Some m =>
              (Ok None,
               with_items c1
                 (Some (<[Id st := {| stateObject := Some st; cachedAt := cachedAt;
                                      expiresAt := expiry |}]> m)))
          end
      | Panic msg => (Panic msg, c1)
      | OutOfFuel => (OutOfFuel, c1)
      end
  end.

(** Reading a nil map finds nothing. *)
Definition lookupItem (c : MyStateCache) (key : string) : option cachedItem :=
  match items c with
  | None => None
  | Some m => m !! key
  end.

(** [Get] returns the state pointer and the [error]; it does not change
    the cache. *)
Definition Get (stateId : string) (now : Z) (c : MyStateCache)
  : option MyState * option string :=
  match lookupItem c stateId with
  | None => (None, Some "state item not found"%string)
  | Some item =>
      if expiresAt item <=? now
      then (None, Some "state item was found as expired"%string)
      else (stateObject item, None)
  end.

Definition Shutdown (c : MyStateCache) : MyStateCache :=
  {| items := None; expirations := []; expiryMap := ∅; mem := mem c;
     cancelled := true |}.

(** The loop of [clean]: [delete] on a nil map does nothing. *)
Fixpoint clean_loop (fuel : nat) (now : Z) (c : MyStateCache)
  : result unit * MyStateCache :=
  match fuel with
  | O => (OutOfFuel, c)
  | S fuel' =>
      if 0 <? Z.of_nat (length (expirations c)) then
        match lookupZ (expirations c) 0 with
        | None => (Panic "index out of range", c)
        | Some earliest =>
            match mem c !! earliest with
            | None => (Panic "nil pointer dereference", c)
            | Some e =>
                if unixExpiryTime e >? now then (Ok tt, c)
                else
                  match onQueue heap.Pop c with
                  | (Ok _, c1) =>
                      match mem c1 !! earliest with
                      | None => (Panic "nil pointer dereference", c1)
                      | Some e1 =>
                          clean_loop fuel' now
                            (with_items c1 (delete (itemKey e1) <$> items c1))
                      end
                  | (Panic msg, c1) => (Panic msg, c1)
                  | (OutOfFuel, c1) => (OutOfFuel, c1)
                  end
            end
        end
      else (Ok tt, c)
  end.

Definition clean (now : Z) (c : MyStateCache) : result unit * MyStateCache :=
  clean_loop (S (length (expirations c))) now c.

(** ** Histories of operations *)

Inductive op :=
| OpSet (state : option MyState) (lifespan now : Z)
| OpGet (stateId : string) (now : Z)
| OpClean (now : Z)
| OpShutdown.

Definition step (c : MyStateCache) (o : op) : MyStateCache :=
  match o with
  | OpSet state lifespan now => snd (Set_ state lifespan now c)
  | OpGet _ _ => c
  | OpClean now => snd (clean now c)
  | OpShutdown => Shutdown c
  end.

Definition run (ops : list op) : MyStateCache := fold_left step ops NewMyStateCache.

(** ** The queue driven directly

    [Push] of a fresh entry, [Fix] after an in-place change of the
    timestamp at a position, and [PopMin]. *)

Inductive qop :=
| QPush (key : string) (expiry : Z)
| QFix (i : Z) (expiry : Z)
| QPopMin.

Definition qalloc (key : string) (expiry : Z) : M loc :=
  fun s =>
    let p := fresh (dom (objs s)) in
    (Ok p, {| objs := <[p := {| itemKey := key; unixExpiryTime := expiry; index := 0 |}]> (objs s);
              queue := queue s |}).

Definition qexec (o : qop) : M unit :=
  match o with
  | QPush key expiry => do p <- qalloc key expiry; heap.Push p
  | QFix i expiry => do p <- elemAt i; refresh p expiry
  | QPopMin => do_ heap.Pop; ret tt
  end.

Definition qstep (s : qstate) (o : qop) : qstate := snd (qexec o s).

Definition qempty : qstate := snd (heap.Init {| objs := ∅; queue := [] |}).

Definition qrun (ops : list qop) : qstate := fold_left qstep ops qempty.

(** ** Predicates *)

(** The timestamp behind an address, and the timestamps along the queue. *)
Definition key_of (m : gmap loc itemExpiry) (p : loc) : Z :=
  from_option unixExpiryTime 0 (m !! p).

Definition keys (s : qstate) : list Z := key_of (objs s) <$> queue s.

(** Heap order as the claim words it: every non-root entry is at least its
    parent, the parent of position [j] being [(j - 1) / 2]. *)
Definition heap_ordered (l : list Z) : Prop :=
  forall (j : nat) (a b : Z),
    (0 < j)%nat -> l !! j = Some b -> l !! ((j - 1) / 2)%nat = Some a -> a <= b.

(** The same order, by children, on the first [n] positions. *)
Definition child (i c : nat) : Prop := (c = 2 * i + 1 \/ c = 2 * i + 2)%nat.

Definition le_at (l : list Z) (i c : nat) : Prop :=
  forall a b, l !! i = Some a -> l !! c = Some b -> a <= b.

Definition heapN (l : list Z) (n : nat) : Prop :=
  forall i c, child i c -> (c < n)%nat -> le_at l i c.

(** [l'] is [l] with positions [i] and [j] exchanged. *)
Definition is_swap (l l' : list Z) (i j : nat) : Prop :=
  forall k, l' !! k =
            if decide (k = j) then l !! i
            else if decide (k = i) then l !! j else l !! k.

(** Heap order except below position [i] (what [down] repairs), except
    above position [j] (what [up] repairs), and except around a position
    whose timestamp was just overwritten (what [Fix] repairs). *)
Definition down_inv (l : list Z) (i n : nat) : Prop :=
  (forall a c, child a c -> (c < n)%nat -> a <> i -> le_at l a c) /\
  (forall g c, child g i -> child i c -> (c < n)%nat -> le_at l g c).

Definition up_inv (l : list Z) (j n : nat) : Prop :=
  (forall a c, child a c -> (c < n)%nat -> c <> j -> le_at l a c) /\
  (forall g c, child g j -> child j c -> (c < n)%nat -> le_at l g c).

Definition fix_inv (l : list Z) (i n : nat) : Prop :=
  (forall a c, child a c -> (c < n)%nat -> a <> i -> c <> i -> le_at l a c) /\
  (forall g c, child g i -> child i c -> (c < n)%nat -> le_at l g c).

(** The queue is well formed: no address twice, and every entry records its
    own position. *)
Definition wfq (s : qstate) : Prop :=
  NoDup (queue s) /\
  forall (i : nat) p, queue s !! i = Some p ->
    exists e, objs s !! p = Some e /\ index e = Z.of_nat i.

(** A well-formed queue in heap order. *)
Definition wf_queue (s : qstate) : Prop :=
  wfq s /\ heapN (keys s) (length (queue s)).

Definition same_payload (e e' : itemExpiry) : Prop :=
  itemKey e' = itemKey e /\ unixExpiryTime e' = unixExpiryTime e.

Definition payload (e : itemExpiry) : string * Z := (itemKey e, unixExpiryTime e).

(** [m'] is [m] up to the [index] fields of the objects in [l]. *)
Definition reindexed (l : list loc) (m m' : gmap loc itemExpiry) : Prop :=
  forall p,
    (p ∉ l -> m' !! p = m !! p) /\
    (forall e, m !! p = Some e -> exists e', m' !! p = Some e' /\ same_payload e e') /\
    (m !! p = None -> m' !! p = None).

(** A run of queue code that may only permute the queue. *)
Definition permutes (s s' : qstate) : Prop :=
  wfq s' /\
  length (queue s') = length (queue s) /\
  (forall p, p ∈ queue s' <-> p ∈ queue s) /\
  reindexed (queue s) (objs s) (objs s').

(** The invariant of the cache: the queue is a well-formed heap; every
    queue entry is the one [expiryMap] holds for its key; every entry of
    [expiryMap] is on the queue at its recorded index, or off the queue
    with index [-1]; every queue entry has an item with the same expiry. *)
Definition linked (em : gmap string loc) (s : qstate) : Prop :=
  forall p, p ∈ queue s ->
    exists e, objs s !! p = Some e /\ em !! itemKey e = Some p.

Definition tracked (em : gmap string loc) (s : qstate) : Prop :=
  forall k p, em !! k = Some p ->
    exists e, objs s !! p = Some e /\ itemKey e = k /\
              (index e = -1 \/ lookupZ (queue s) (index e) = Some p).

Definition stored (its : option (gmap string cachedItem)) (s : qstate) : Prop :=
  forall p e m, p ∈ queue s -> objs s !! p = Some e -> its = Some m ->
    exists it, m !! itemKey e = Some it /\ expiresAt it = unixExpiryTime e.

Definition wf_cache (c : MyStateCache) : Prop :=
  wfq (qstate_of c) /\
  heapN (keys (qstate_of c)) (length (expirations c)) /\
  linked (expiryMap c) (qstate_of c) /\
  tracked (expiryMap c) (qstate_of c) /\
  stored (items c) (qstate_of c).

(** The key has an expiry entry that a sweep took off the queue. *)
Definition swept (c : MyStateCache) (k : string) : Prop :=
  exists p e, expiryMap c !! k = Some p /\ mem c !! p = Some e /\ index e = -1.

(** What the branch guarantees; [p] is the entry of [k] afterwards. *)
Definition branch_post (c c1 : MyStateCache) (k : string) (t : Z) (p : loc) : Prop :=
  items c1 = items c /\ cancelled c1 = cancelled c /\
  wfq (qstate_of c1) /\
  heapN (keys (qstate_of c1)) (length (expirations c1)) /\
  expiryMap c1 = <[k := p]> (expiryMap c) /\
  (exists ep, mem c1 !! p = Some ep /\ itemKey ep = k /\ unixExpiryTime ep = t) /\
  (forall p', p' <> p -> payload <$> mem c1 !! p' = payload <$> mem c !! p') /\
  (forall p', p' ∉ expirations c1 -> index <$> mem c1 !! p' = index <$> mem c !! p') /\
  (forall p', p' <> p -> p' ∈ expirations c1 <-> p' ∈ expirations c) /\
  (p ∈ expirations c -> p ∈ expirations c1) /\
  (expiryMap c !! k = None /\ mem c !! p = None /\ p ∈ expirations c1
   \/ expiryMap c !! k = Some p) /\
  (~ swept c k -> p ∈ expirations c1) /\
  (swept c k -> expirations c1 = expirations c /\ p ∉ expirations c1).

(** The item [Set] stores. *)
Definition newItem (st : MyState) (lifespan now : Z) : cachedItem :=
  {| stateObject := Some st; cachedAt := now;
     expiresAt := wrap64 (now + lifespanSeconds lifespan) |}.

(** The queue entries of a key. *)
Definition queueEntriesFor (c : MyStateCache) (k : string) : list loc :=
  filter (fun p => itemKey <$> mem c !! p = Some k) (expirations c).

(** A queue entry of the key is due at [now]. *)
Definition due (c : MyStateCache) (now : Z) (k : string) : Prop :=
  exists p e, p ∈ expirations c /\ mem c !! p = Some e /\ itemKey e = k /\
              unixExpiryTime e <= now.

(** What a sweep at [now] leaves of the cache [c]. *)
Definition clean_post (c : MyStateCache) (now : Z) (c' : MyStateCache) : Prop :=
  wf_cache c' /\
  expiryMap c' = expiryMap c /\ cancelled c' = cancelled c /\
  (forall p, p ∈ expirations c' <-> p ∈ expirations c /\ now < key_of (mem c) p) /\
  reindexed (expirations c) (mem c) (mem c') /\
  (forall p, p ∈ expirations c -> p ∉ expirations c' ->
     exists e, mem c' !! p = Some e /\ index e = -1) /\
  (forall k it, lookupItem c' k = Some it -> lookupItem c k = Some it) /\
  (forall k, due c now k -> lookupItem c' k = None) /\
  (forall k, ~ due c now k -> lookupItem c' k = lookupItem c k) /\
  (items c = None -> items c' = None).

Definition sweeps (times : list Z) (c : MyStateCache) : MyStateCache :=
  fold_left (fun c now => snd (clean now c)) times c.

(** Sample states. *)
Definition stateA : MyState := {| Id := "a"; Values := [1; 2; 3] |}.
Definition stateB : MyState := {| Id := "b"; Values := [4; 5; 6] |}.
Definition stateA2 : MyState := {| Id := "a"; Values := [7; 8; 9] |}.

(** ** Histories, further *)

(** The keys a history sets with a non-nil state. *)
Definition setIds (ops : list op) : list string :=
  omap (fun o => match o with
                 | OpSet (Some st) _ _ => Some (Id st)
                 | _ => None
                 end) ops.

Definition isShutdown (o : op) : bool :=
  match o with OpShutdown => true | _ => false end.

(** No [Shutdown] in the history. *)
Definition noShutdown (ops : list op) : Prop :=
  Forall (fun o => isShutdown o = false) ops.

(** ** The driver of the heap-backed cache ([cache_with_expiry_heap/main.go]) *)

(** The states the driver caches. *)
Definition states : list MyState :=
  [ {| Id := "state#1"; Values := [1; 2; 3] |};
    {| Id := "state#2"; Values := [4; 5; 6] |};
    {| Id := "state#3"; Values := [7; 8; 9] |};
    {| Id := "state#4"; Values := [10; 11; 12] |};
    {| Id := "state#5"; Values := [13; 14; 15] |};
    {| Id := "state#6"; Values := [16; 17; 18] |} ].

(** The loop of [run]:
    [for _, state := range states { err := cache.Set(state, backoff); ...;
     backoff = backoff * 2 }].
    [range] over a map visits it in an order that is not specified:
    [visits] is the order taken, each state with the clock reading of its
    [Set].  A [time.Duration] is an [int64], so the doubling wraps. *)
Fixpoint populate (visits : list (MyState * Z)) (backoff : Z) (c : MyStateCache)
  : MyStateCache :=
  match visits with
  | [] => c
  | (state, now) :: rest =>
      populate rest (wrap64 (backoff * 2)) (snd (Set_ (Some state) backoff now c))
  end.

(** The backoff after [n] rounds of the loop. *)
Definition backoffAfter (n : nat) (backoff : Z) : Z :=
  Nat.iter n (fun b => wrap64 (b * 2)) backoff.

(** ** The cache without a heap

    The cache of the second driver: one map, reads with expiry on read, and
    a sweep that scans the whole map.  Its source is the second document of
    [channels_direction/main.go]; its driver is [unnamed/part_000].  The
    map is made by [NewMyStateCache] and never set to nil, and a
    [CachedItem] is never written after it is stored, so the map holds the
    items themselves. *)

Module Basic.

Record CachedItem := {
  StateObject : option MyState;   (* *MyState, [None] is nil *)
  CachedAt : Z;
  ExpiresAt : Z
}.

Record MyStateCache := {
  items : gmap string CachedItem;
  cancelled : bool
}.

Definition NewMyStateCache : MyStateCache :=
  {| items := ∅; cancelled := false |}.

(** [Set] has no nil check: [state.Id] on a nil state panics, after the
    item was built and before the map is written. *)
Definition Set_ (state : option MyState) (lifespan now : Z) (c : MyStateCache)
  : result unit * MyStateCache :=
  let cachedAt := now in
  let expiry := wrap64 (cachedAt + lifespanSeconds lifespan) in
  let cacheItem := {| StateObject := state; CachedAt := cachedAt; ExpiresAt := expiry |} in
  match state with
  | None => (Panic "nil pointer dereference", c)
  | Some st =>
      (Ok tt, {| items := <[Id st := cacheItem]> (items c); cancelled := cancelled c |})
  end.

Definition Get (stateId : string) (now : Z) (c : MyStateCache) : option MyState :=
  match items c !! stateId with
  | None => None
  | Some item => if ExpiresAt item <=? now then None else StateObject item
  end.

Definition Shutdown (c : MyStateCache) : MyStateCache :=
  {| items := items c; cancelled := true |}.

(** One round of [for id, item := range cache.items]: the entry is deleted
    when it has expired.  An entry deleted before [range] reaches it is not
    visited. *)
Definition clean_visit (now : Z) (m : gmap string CachedItem) (id : string)
  : gmap string CachedItem :=
  match m !! id with
  | Some item => if ExpiresAt item <=? now then delete id m else m
  | None => m
  end.

(** The sweep, visiting the keys in the order [order] that [range] takes. *)
Definition clean_in (order : list string) (now : Z) (c : MyStateCache) : MyStateCache :=
  {| items := fold_left (clean_visit now) order (items c); cancelled := cancelled c |}.

(** The sweep in one order, that of [map_to_list]. *)
Definition clean (now : Z) (c : MyStateCache) : MyStateCache :=
  clean_in (map fst (map_to_list (items c))) now c.

Definition step (c : MyStateCache) (o : op) : MyStateCache :=
  match o with
  | OpSet state lifespan now => snd (Set_ state lifespan now c)
  | OpGet _ _ => c
  | OpClean now => clean now c
  | OpShutdown => Shutdown c
  end.

Definition run (ops : list op) : MyStateCache := fold_left step ops NewMyStateCache.

Definition sweeps (times : list Z) (c : MyStateCache) : MyStateCache :=
  fold_left (fun c now => clean now c) times c.

(** An order of visits that [range] can take over the map [m]: every key
    once. *)
Definition visits_of (m : gmap string CachedItem) (order : list string) : Prop :=
  NoDup order /\ forall k, k ∈ order <-> is_Some (m !! k).

(** What a sweep at [now] leaves of an entry. *)
Definition survives (now : Z) (o : option CachedItem) : option CachedItem :=
  match o with
  | Some item => if ExpiresAt item <=? now then None else Some item
  | None => None
  end.

(** The loop of the second driver:
    [for _, state := range states { cache.Set(state, backoff);
     backoff += time.Second * 10 }]. *)
Fixpoint populate (visits : list (MyState * Z)) (backoff : Z) (c : MyStateCache)
  : MyStateCache :=
  match visits with
  | [] => c
  | (state, now) :: rest =>
      populate rest (wrap64 (backoff + wrap64 (Second * 10)))
               (snd (Set_ (Some state) backoff now c))
  end.

End Basic.

(** The sweeps of a history stay at or before [q]. *)
Definition sweepsUpTo (q : Z) (ops : list op) : Prop :=
  Forall (fun o => match o with OpClean s => s <= q | _ => True end) ops.

(** An item of the heap-backed cache and one of the cache without a heap
    with the same fields. *)
Definition sameItem (it : cachedItem) (it' : Basic.CachedItem) : Prop :=
  stateObject it = Basic.StateObject it' /\
  cachedAt it = Basic.CachedAt it' /\
  expiresAt it = Basic.ExpiresAt it'.

(** ** Channels used by one goroutine ([channels_direction/main.go])

    The example runs in a single goroutine on a buffered channel: a send
    completes when the buffer has room, a receive when the buffer holds a
    message, and otherwise the operation blocks, for good since no other
    goroutine can act.  The channel is the one [run] makes: it is not nil
    and nobody closes it.  The result of a function is the channel and the
    lines printed so far, with whether it returned; a line is the text of
    one [Printf] without its final newline. *)

Module Channels.

Record chan := {
  capacity : nat;          (* [make(chan string, capacity)] *)
  buffer : list string     (* the messages buffered, oldest first *)
}.

Inductive outcome :=
| Returns (ch : chan) (out : list string)
| Blocks (ch : chan) (out : list string).

(** [ch <- msg] *)
Definition send (ch : chan) (msg : string) : option chan :=
  if decide (length (buffer ch) < capacity ch)%nat
  then Some {| capacity := capacity ch; buffer := buffer ch ++ [msg] |}
  else None.

(** [<-ch] *)
Definition recv (ch : chan) : option (string * chan) :=
  match buffer ch with
  | msg :: rest => Some (msg, {| capacity := capacity ch; buffer := rest |})
  | [] => None
  end.

Definition doesBoth (standardChannel : chan) (msg : string) (out : list string) : outcome :=
  match recv standardChannel with
  | None => Blocks standardChannel out
  | Some (received, ch1) =>
      let out1 := out ++ ["'doesBoth()' received message '" +:+ received +:+ "' "] in
      match send ch1 msg with
      | None => Blocks ch1 out1
      | Some ch2 =>
          Returns ch2 (out1 ++ ["'doesBoth()' sent message '" +:+ msg +:+ "' "])
      end
  end.

Definition sendOnly (outbound : chan) (msg : string) (out : list string) : outcome :=
  match send outbound msg with
  | None => Blocks outbound out
  | Some ch1 => Returns ch1 (out ++ ["'sendOnly()' sent message '" +:+ msg +:+ "' "])
  end.

Definition receiveOnly (inbound : chan) (out : list string) : outcome :=
  match recv inbound with
  | None => Blocks inbound out
  | Some (msg, ch1) =>
      Returns ch1 (out ++ ["'receiveOnly()' received message '" +:+ msg +:+ "' "])
  end.

(** [run]: [channel := make(chan string, 3); channel <- "hi!"] and the
    three calls. *)
Definition run : outcome :=
  let channel := {| capacity := 3; buffer := [] |} in
  match send channel "hi!" with
  | None => Blocks channel []
  | Some ch1 =>
      match doesBoth ch1 "hello!" [] with
      | Blocks ch out => Blocks ch out
      | Returns ch2 out2 =>
          match sendOnly ch2 "aloha!" out2 with
          | Blocks ch out => Blocks ch out
          | Returns ch3 out3 => receiveOnly ch3 out3
          end
      end
  end.

(** A channel holds no more than its capacity. *)
Definition wf (ch : chan) : Prop := (length (buffer ch) <= capacity ch)%nat.

End Channels.

(** ** The file list of the channel comparison
    ([channels_buffered_vs_unbuffered/main.go]) *)

Module Files.

Record FileInfo := { name : string; size : Z }.

(** [fmt.Sprintf("file%d.txt", i+1)] *)
Definition fileName (i : Z) : string := "file" +:+ pretty (i + 1) +:+ ".txt".

(** The size of a [FileInfo] in bytes where [int] has 64 bits: a string
    header (pointer and length) and an [int]. *)
Definition fileInfoSize : Z := 24.

(** The runtime's [maxAlloc], the largest allocation it accepts: [1 << 48]
    bytes where the heap has 48 address bits (linux/amd64 among them). *)
Definition maxAlloc : Z := 2 ^ 48.

(** The check of the runtime's [makeslice] for [make([]FileInfo, count)]:
    [mem, overflow := math.MulUintptr(et.Size_, uintptr(len));
     if overflow || mem > maxAlloc || len < 0 { panicmakeslicelen() }].
    The product is taken in [Z]: one that overflows a [uintptr] is above
    [maxAlloc] as well. *)
Definition makesliceOutOfRange (count : Z) : bool :=
  (count <? 0) || (maxAlloc <? fileInfoSize * count).

(** [generateLargeFileList]: [make([]FileInfo, count)] panics on a count
    that [makeslice] refuses; then slot [i] gets its name and
    [rand.Intn(3) + 1], where [intn i] is the [i]-th draw of
    [rand.Intn(3)].  The source made by [rand.NewSource] is dropped and
    draws nothing.  An allocation that [makeslice] accepts is taken to
    succeed: a process that runs out of memory dies of a fatal error, which
    is no panic and no result of the function. *)
Definition generateLargeFileList (count : Z) (intn : nat -> Z) : result (list FileInfo) :=
  if makesliceOutOfRange count then Panic "makeslice: len out of range"
  else
    Ok (fold_left
          (fun files i =>
             <[i := {| name := fileName (Z.of_nat i); size := intn i + 1 |}]> files)
          (seq 0 (Z.to_nat count))
          (replicate (Z.to_nat count) {| name := ""; size := 0 |})).

(** [strings.Index(s, substr)]: the index of the first occurrence, or
    [-1]. *)
Definition stringsIndex (s substr : string) : Z :=
  match String.index 0 substr s with
  | Some n => Z.of_nat n
  | None => -1
  end.

(** What a worker reads for a file name it received:
    [fileIndex := strings.Index(fileName, "file");
     fileInfo := files[fileIndex]]. *)
Definition workerFile (files : list FileInfo) (fileName : string) : result FileInfo :=
  match lookupZ files (stringsIndex fileName "file") with
  | Some fileInfo => Ok fileInfo
  | None => Panic "index out of range"
  end.

End Files.

(** What relates the two caches along a history whose sweeps stay at or
    before [q]: the cache without a heap holds a part of the items of the
    heap-backed one, and what it lacks of them has expired by [q]. *)
Definition agree (q : Z) (h : MyStateCache) (b : Basic.MyStateCache) : Prop :=
  forall k,
    match lookupItem h k, Basic.items b !! k with
    | Some it, Some it' => sameItem it it'
    | Some it, None => expiresAt it <= q
    | None, Some _ => False
    | None, None => True
    end.

(** * Proofs *)

(** ** Lists, indices, the monad *)

Lemma bind_ok {A B} (m : M A) (f : A -> M B) s a s' :
  m s = (Ok a, s') -> bind m f s = f a s'.
Proof. intros H. unfold bind. now rewrite H. Qed.

Lemma lookupZ_nat {A} (l : list A) (i : nat) : lookupZ l (Z.of_nat i) = l !! i.
Proof.
  unfold lookupZ. destruct (Z.ltb_spec (Z.of_nat i) 0); [lia|].
  now rewrite Nat2Z.id.
Qed.

Lemma lookupZ_neg {A} (l : list A) (i : Z) : i < 0 -> lookupZ l i = None.
Proof. intros H. unfold lookupZ. destruct (Z.ltb_spec i 0); [done|lia]. Qed.

Lemma lookupZ_Some {A} (l : list A) (i : Z) x :
  lookupZ l i = Some x -> exists n : nat, i = Z.of_nat n /\ l !! n = Some x.
Proof.
  unfold lookupZ. destruct (Z.ltb_spec i 0); [done|].
  intros H'. exists (Z.to_nat i). split; [lia|done].
Qed.

(** ** Heap order on a list of timestamps *)

Ltac idx := unfold child in *; lia.

Ltac swap_at Hsw H :=
  rewrite Hsw in H;
  repeat (destruct (decide _) as [?|?] in H; try (exfalso; idx); subst).

Lemma child_parent (j : nat) : (0 < j)%nat -> child ((j - 1) / 2) j.
Proof.
  intros Hj. unfold child.
  pose proof (Nat.div_mod_eq (j - 1) 2) as Hd.
  pose proof (Nat.mod_upper_bound (j - 1) 2) as Hm. lia.
Qed.

Lemma child_parent_eq (i j : nat) : child i j -> i = ((j - 1) / 2)%nat.
Proof.
  unfold child. intros [-> | ->].
  - replace (2 * i + 1 - 1)%nat with (i * 2)%nat by lia.
    now rewrite Nat.div_mul.
  - replace (2 * i + 2 - 1)%nat with (1 + i * 2)%nat by lia.
    rewrite Nat.div_add by lia. reflexivity.
Qed.

Lemma heapN_heap_ordered (l : list Z) : heapN l (length l) <-> heap_ordered l.
Proof.
  split.
  - intros H j a b Hj Hb Ha.
    apply (H ((j - 1) / 2)%nat j); auto using child_parent.
    eapply lookup_lt_Some; eauto.
  - intros H i c Hic Hc a b Ha Hb.
    apply (H c a b); [idx | done |].
    now rewrite <- (child_parent_eq i c Hic).
Qed.

Lemma heapN_nil n : heapN [] n.
Proof. intros i c _ _ a b Ha. done. Qed.

Lemma down_inv_done l i n :
  down_inv l i n ->
  (forall c, child i c -> (c < n)%nat -> le_at l i c) ->
  heapN l n.
Proof.
  intros [H1 _] Hi a c Hac Hc.
  destruct (decide (a = i)) as [->|Hne]; auto.
Qed.

Lemma up_inv_done l j n :
  up_inv l j n ->
  (forall i, child i j -> le_at l i j) ->
  heapN l n.
Proof.
  intros [H1 _] Hj a c Hac Hc.
  destruct (decide (c = j)) as [->|Hne]; auto.
Qed.

Lemma up_inv_root l n : up_inv l 0 n -> heapN l n.
Proof. intros H. apply (up_inv_done l 0%nat n H). intros i Hi. idx. Qed.

Lemma up_inv_swap l l' i j n ki kj :
  up_inv l j n -> child i j -> (j < n)%nat ->
  l !! i = Some ki -> l !! j = Some kj -> kj < ki ->
  is_swap l l' i j ->
  up_inv l' i n.
Proof.
  intros [H1 H2] Hij Hjn Hi Hj Hlt Hsw. split.
  - intros a c Hac Hc Hne x y Hx Hy.
    swap_at Hsw Hx; swap_at Hsw Hy.
    + (* a = j *) assert (ki = x) by congruence. subst.
      eapply (H2 i c); eauto.
    + (* a = i, c = j *) assert (kj = x) by congruence.
      assert (ki = y) by congruence. lia.
    + (* a = i, c the sibling *) assert (kj = x) by congruence. subst.
      assert (ki <= y) by (eapply (H1 i c); eauto). lia.
    + eapply (H1 a c); eauto.
  - intros g c Hg Hc Hcn x y Hx Hy.
    swap_at Hsw Hx; swap_at Hsw Hy.
    + assert (ki = y) by congruence. subst.
      eapply (H1 g i); eauto; idx.
    + assert (x <= ki) by (eapply (H1 g i); eauto; idx).
      assert (ki <= y) by (eapply (H1 i c); eauto). lia.
Qed.

Lemma down_inv_swap l l' i j n ki kj :
  down_inv l i n -> child i j -> (j < n)%nat ->
  l !! i = Some ki -> l !! j = Some kj -> kj < ki ->
  (forall c, child i c -> (c < n)%nat -> le_at l j c) ->
  is_swap l l' i j ->
  down_inv l' j n.
Proof.
  intros [H1 H2] Hij Hjn Hi Hj Hlt Hmin Hsw. split.
  - intros a c Hac Hc Hne x y Hx Hy.
    swap_at Hsw Hx; swap_at Hsw Hy.
    + (* a = i, c = j *) assert (kj = x) by congruence.
      assert (ki = y) by congruence. lia.
    + (* a = i, c the sibling *) eapply (Hmin c); eauto.
    + (* c = i *) eapply (H2 a j); eauto.
    + eapply (H1 a c); eauto.
  - intros g c Hg Hc Hcn x y Hx Hy.
    assert (g = i) by idx. subst g.
    swap_at Hsw Hx; swap_at Hsw Hy.
    eapply (H1 j c); eauto; idx.
Qed.

Lemma fix_inv_up l i n :
  fix_inv l i n ->
  (forall c, child i c -> (c < n)%nat -> le_at l i c) ->
  up_inv l i n.
Proof.
  intros [H1 H2] Hc. split; [|done].
  intros a c Hac Hcn Hne. destruct (decide (a = i)) as [->|]; auto.
Qed.

Lemma fix_inv_down l i n :
  fix_inv l i n ->
  (forall g, child g i -> le_at l g i) ->
  down_inv l i n.
Proof.
  intros [H1 H2] Hg. split; [|done].
  intros a c Hac Hcn Hne. destruct (decide (c = i)) as [->|]; auto.
Qed.

Lemma heapN_fix_inv l i n x :
  heapN l n -> (i < n)%nat -> (i < length l)%nat ->
  fix_inv (<[i := x]> l) i n.
Proof.
  intros H Hin Hi. destruct (lookup_lt_is_Some_2 l i Hi) as [old Hold]. split.
  - intros a c Hac Hc Ha Hci u v Hu Hv.
    rewrite list_lookup_insert_ne in Hu by done.
    rewrite list_lookup_insert_ne in Hv by done.
    eapply (H a c); eauto.
  - intros g c Hg Hc Hcn u v Hu Hv.
    rewrite list_lookup_insert_ne in Hu by idx.
    rewrite list_lookup_insert_ne in Hv by idx.
    assert (u <= old) by (eapply (H g i); eauto).
    assert (old <= v) by (eapply (H i c); eauto). lia.
Qed.

Lemma heapN_snoc_up_inv l x :
  heapN l (length l) -> up_inv (l ++ [x]) (length l) (S (length l)).
Proof.
  intros H. split.
  - intros a c Hac Hc Hne u v Hu Hv.
    rewrite lookup_app_l in Hu by idx.
    rewrite lookup_app_l in Hv by idx.
    eapply (H a c); eauto. lia.
  - intros g c Hg Hc Hcn. idx.
Qed.

Lemma heapN_take l n : heapN l n -> heapN (take n l) n.
Proof.
  intros H a c Hac Hc u v Hu Hv.
  rewrite lookup_take_lt in Hu by idx.
  rewrite lookup_take_lt in Hv by idx.
  eapply (H a c); eauto.
Qed.

(** The root of a heap is a minimum. *)
Lemma heapN_root_min l n :
  heapN l n -> (n <= length l)%nat ->
  forall k a b, (k < n)%nat -> l !! 0%nat = Some a -> l !! k = Some b -> a <= b.
Proof.
  intros H Hn k. induction k as [k IH] using lt_wf_ind.
  intros a b Hk Ha Hb.
  destruct (decide (k = 0%nat)) as [->|Hk0]; [assert (a = b) by congruence; lia|].
  pose proof (child_parent k ltac:(lia)) as Hc.
  assert (Hlt : ((k - 1) / 2 < k)%nat) by idx.
  destruct (lookup_lt_is_Some_2 l ((k - 1) / 2)%nat ltac:(lia)) as [c Hcv].
  assert (a <= c) by (eapply IH; eauto; lia).
  assert (c <= b) by (eapply (H _ k); eauto). lia.
Qed.

(** ** The queue methods on a well-formed queue *)

Lemma lookup_exchange {A} (l : list A) (i j k : nat) a b :
  l !! i = Some a -> l !! j = Some b -> i <> j ->
  <[j := a]> (<[i := b]> l) !! k =
    if decide (k = j) then Some a else if decide (k = i) then Some b else l !! k.
Proof.
  intros Hi Hj Hne.
  pose proof (lookup_lt_Some _ _ _ Hi). pose proof (lookup_lt_Some _ _ _ Hj).
  destruct (decide (k = j)) as [->|Hkj].
  - rewrite list_lookup_insert_eq; [done|]. now rewrite length_insert.
  - rewrite list_lookup_insert_ne by done.
    destruct (decide (k = i)) as [->|Hki].
    + now rewrite list_lookup_insert_eq.
    + now rewrite list_lookup_insert_ne.
Qed.

Lemma elemAt_ok s (i : nat) p :
  queue s !! i = Some p -> elemAt (Z.of_nat i) s = (Ok p, s).
Proof. intros H. unfold elemAt. now rewrite lookupZ_nat, H. Qed.

Lemma storeAt_ok s (i : nat) p :
  (i < length (queue s))%nat ->
  storeAt (Z.of_nat i) p s = (Ok tt, {| objs := objs s; queue := <[i := p]> (queue s) |}).
Proof.
  intros H. unfold storeAt. rewrite lookupZ_nat, Nat2Z.id.
  destruct (lookup_lt_is_Some_2 _ _ H) as [x ->]. done.
Qed.

Lemma load_ok s p e : objs s !! p = Some e -> load p s = (Ok e, s).
Proof. intros H. unfold load. now rewrite H. Qed.

Lemma setIndex_ok s p e i :
  objs s !! p = Some e ->
  setIndex p i s = (Ok tt, {| objs := <[p := withIndex e i]> (objs s); queue := queue s |}).
Proof. intros H. unfold setIndex. now rewrite H. Qed.

Lemma wfq_obj s i p : wfq s -> queue s !! i = Some p ->
  exists e, objs s !! p = Some e /\ index e = Z.of_nat i.
Proof. intros [_ H]. apply H. Qed.

Lemma wfq_inj s i j p : wfq s -> queue s !! i = Some p -> queue s !! j = Some p -> i = j.
Proof. intros [H _]. rewrite NoDup_alt in H. apply H. Qed.

Lemma keys_lookup s (i : nat) p :
  queue s !! i = Some p -> keys s !! i = Some (key_of (objs s) p).
Proof. intros H. unfold keys. now rewrite list_lookup_fmap, H. Qed.

Lemma keys_length s : length (keys s) = length (queue s).
Proof. unfold keys. apply length_fmap. Qed.

Lemma key_of_payload m m' p e e' :
  m !! p = Some e -> m' !! p = Some e' -> same_payload e e' ->
  key_of m' p = key_of m p.
Proof. intros H H' [_ Hk]. unfold key_of. now rewrite H, H'. Qed.

Lemma reindexed_key_of l m m' p : reindexed l m m' -> key_of m' p = key_of m p.
Proof.
  intros H. destruct (H p) as (_ & Hs & Hn).
  destruct (m !! p) as [e|] eqn:E.
  - destruct (Hs e eq_refl) as (e' & He' & Hp). eapply key_of_payload; eauto.
  - unfold key_of. now rewrite E, (Hn eq_refl).
Qed.

Lemma reindexed_refl l m : reindexed l m m.
Proof.
  intros p. repeat split; auto. intros e He. exists e. repeat split; auto.
Qed.

Lemma reindexed_trans l m1 m2 m3 :
  reindexed l m1 m2 -> reindexed l m2 m3 -> reindexed l m1 m3.
Proof.
  intros H12 H23 p.
  destruct (H12 p) as (Ha & Hb & Hc). destruct (H23 p) as (Ha' & Hb' & Hc').
  repeat split.
  - intros Hp. rewrite Ha', Ha; auto.
  - intros e He. destruct (Hb e He) as (e2 & He2 & [? ?]).
    destruct (Hb' e2 He2) as (e3 & He3 & [? ?]).
    exists e3. repeat split; congruence.
  - auto.
Qed.

Lemma reindexed_weaken (l l' : list loc) m m' :
  (forall p, p ∈ l -> p ∈ l') -> reindexed l m m' -> reindexed l' m m'.
Proof.
  intros Hsub H p. destruct (H p) as (Ha & Hb & Hc). repeat split; auto.
Qed.

Lemma permutes_refl s : wfq s -> permutes s s.
Proof.
  intros H. split; [done|]. split; [done|]. split; [done|].
  apply reindexed_refl.
Qed.

Lemma permutes_trans s1 s2 s3 : permutes s1 s2 -> permutes s2 s3 -> permutes s1 s3.
Proof.
  intros (_ & Hl & Hm & Hr) (Hw & Hl' & Hm' & Hr').
  split; [done|]. split; [congruence|]. split.
  - intros p. rewrite Hm'. apply Hm.
  - eapply reindexed_trans; [done|].
    eapply reindexed_weaken; [|done]. intros p. apply Hm.
Qed.

Lemma permutes_keys s s' :
  permutes s s' -> keys s' = key_of (objs s) <$> queue s'.
Proof.
  intros (_ & _ & _ & Hr). unfold keys. apply list_fmap_ext.
  intros i p _. eapply reindexed_key_of; eauto.
Qed.

Lemma Less_spec s (i j : nat) pi pj :
  wfq s -> queue s !! i = Some pi -> queue s !! j = Some pj ->
  expirationQueue.Less (Z.of_nat i) (Z.of_nat j) s
  = (Ok (key_of (objs s) pi <? key_of (objs s) pj), s).
Proof.
  intros Hw Hi Hj.
  destruct (wfq_obj _ _ _ Hw Hi) as (ei & Hei & _).
  destruct (wfq_obj _ _ _ Hw Hj) as (ej & Hej & _).
  unfold expirationQueue.Less.
  rewrite (bind_ok _ _ _ _ _ (elemAt_ok _ _ _ Hi)).
  rewrite (bind_ok _ _ _ _ _ (load_ok _ _ _ Hei)).
  rewrite (bind_ok _ _ _ _ _ (elemAt_ok _ _ _ Hj)).
  rewrite (bind_ok _ _ _ _ _ (load_ok _ _ _ Hej)).
  unfold ret, key_of. now rewrite Hei, Hej.
Qed.

Lemma Swap_spec s (i j : nat) pi pj :
  wfq s -> i <> j -> queue s !! i = Some pi -> queue s !! j = Some pj ->
  exists s',
    expirationQueue.Swap (Z.of_nat i) (Z.of_nat j) s = (Ok tt, s') /\
    queue s' = <[j := pi]> (<[i := pj]> (queue s)) /\
    permutes s s' /\
    is_swap (keys s) (keys s') i j.
Proof.
  intros Hw Hne Hi Hj.
  destruct (wfq_obj _ _ _ Hw Hi) as (ei & Hei & Hii).
  destruct (wfq_obj _ _ _ Hw Hj) as (ej & Hej & Hij).
  assert (Hpp : pi <> pj) by (intros ->; eauto using wfq_inj).
  pose proof (lookup_lt_Some _ _ _ Hi) as Hli.
  pose proof (lookup_lt_Some _ _ _ Hj) as Hlj.
  remember (<[j := pi]> (<[i := pj]> (queue s))) as q' eqn:Eq'.
  remember (<[pi := withIndex ei (Z.of_nat j)]>
               (<[pj := withIndex ej (Z.of_nat i)]> (objs s))) as m' eqn:Em'.
  assert (Hq' : forall k, q' !! k =
            if decide (k = j) then Some pi
            else if decide (k = i) then Some pj else queue s !! k).
  { intros k. subst q'. apply lookup_exchange; auto. }
  assert (Hqi : q' !! i = Some pj).
  { rewrite Hq'. destruct (decide (i = j)); [done|]. destruct (decide (i = i)); congruence. }
  assert (Hqj : q' !! j = Some pi).
  { rewrite Hq'. destruct (decide (j = j)); congruence. }
  exists {| objs := m'; queue := q' |}.
  assert (Hrun : expirationQueue.Swap (Z.of_nat i) (Z.of_nat j) s
                 = (Ok tt, {| objs := m'; queue := q' |})).
  { unfold expirationQueue.Swap.
    rewrite (bind_ok _ _ _ _ _ (elemAt_ok _ _ _ Hj)).
    rewrite (bind_ok _ _ _ _ _ (elemAt_ok _ _ _ Hi)).
    rewrite (bind_ok _ _ _ _ _ (storeAt_ok _ _ _ Hli)).
    erewrite bind_ok; [|apply storeAt_ok; simpl; rewrite length_insert; done].
    simpl. rewrite <- Eq'.
    erewrite bind_ok; [|apply elemAt_ok; simpl; exact Hqi].
    erewrite bind_ok; [|apply setIndex_ok; simpl; eauto].
    simpl.
    erewrite bind_ok; [|apply elemAt_ok; simpl; exact Hqj].
    erewrite setIndex_ok; [subst m'; done|]. simpl. rewrite lookup_insert_ne by done. eauto. }
  assert (Hre : reindexed (queue s) (objs s) m').
  { intros p. subst m'. repeat split.
    - intros Hp.
      assert (p <> pi) by (intros ->; apply Hp; eapply list_elem_of_lookup_2; eauto).
      assert (p <> pj) by (intros ->; apply Hp; eapply list_elem_of_lookup_2; eauto).
      now rewrite !lookup_insert_ne by done.
    - intros e He. destruct (decide (p = pi)) as [->|Hp1].
      + rewrite lookup_insert_eq. eexists; split; [done|].
        assert (e = ei) by congruence. subst. done.
      + rewrite lookup_insert_ne by done. destruct (decide (p = pj)) as [->|Hp2].
        * rewrite lookup_insert_eq. eexists; split; [done|].
          assert (e = ej) by congruence. subst. done.
        * rewrite lookup_insert_ne by done. exists e. done.
    - intros Hn.
      assert (p <> pi) by congruence. assert (p <> pj) by congruence.
      now rewrite !lookup_insert_ne by done. }
  assert (Hmem : forall p, p ∈ q' <-> p ∈ queue s).
  { intros p. rewrite !list_elem_of_lookup. split.
    - intros [k Hk]. rewrite Hq' in Hk.
      destruct (decide (k = j)); [exists i; congruence|].
      destruct (decide (k = i)); [exists j; congruence|eauto].
    - intros [k Hk].
      destruct (decide (k = i)) as [->|Hki].
      { exists j. congruence. }
      destruct (decide (k = j)) as [->|Hkj].
      { exists i. congruence. }
      exists k. rewrite Hq'. destruct (decide (k = j)); [done|].
      destruct (decide (k = i)); done. }
  assert (Hwf : wfq {| objs := m'; queue := q' |}).
  { split; simpl.
    - apply NoDup_alt. intros a b p Ha Hb.
      assert (Hs : forall k, q' !! k =
                queue s !! (if decide (k = j) then i
                            else if decide (k = i) then j else k)).
      { intros k. rewrite Hq'. repeat destruct (decide _); congruence. }
      rewrite Hs in Ha, Hb. pose proof (wfq_inj _ _ _ _ Hw Ha Hb) as E.
      repeat destruct (decide _) in E; lia.
    - intros k p Hk. rewrite Hq' in Hk. subst m'.
      destruct (decide (k = j)) as [->|Hkj].
      { assert (p = pi) by congruence. subst. rewrite lookup_insert_eq. eauto. }
      destruct (decide (k = i)) as [->|Hki].
      { assert (p = pj) by congruence. subst.
        rewrite lookup_insert_ne by done. rewrite lookup_insert_eq. eauto. }
      assert (p <> pi) by (intros ->; apply Hki; eauto using wfq_inj).
      assert (p <> pj) by (intros ->; apply Hkj; eauto using wfq_inj).
      rewrite !lookup_insert_ne by done. eapply wfq_obj; eauto. }
  assert (Hperm : permutes s {| objs := m'; queue := q' |}).
  { split; [done|]. simpl. split; [subst q'; now rewrite !length_insert|]. done. }
  split; [done|]. split; [done|]. split; [done|].
  intros k. rewrite (permutes_keys _ _ Hperm). simpl.
  rewrite list_lookup_fmap, Hq'. unfold keys. rewrite !list_lookup_fmap.
  destruct (decide (k = j)); [now rewrite Hi|].
  destruct (decide (k = i)); [now rewrite Hj|done].
Qed.

(** ** [up] and [down] *)

Lemma parent_Z (j : nat) :
  (0 < j)%nat -> Z.quot (Z.of_nat j - 1) 2 = Z.of_nat ((j - 1) / 2).
Proof.
  intros Hj. rewrite Z.quot_div_nonneg by lia.
  replace (Z.of_nat j - 1) with (Z.of_nat (j - 1)) by lia.
  now rewrite (Nat2Z.inj_div (j - 1) 2).
Qed.

Lemma up_loop_spec fuel : forall s (j : nat),
  wfq s -> (j < length (queue s))%nat -> (j < fuel)%nat ->
  exists s',
    heap.up_loop fuel (Z.of_nat j) s = (Ok tt, s') /\
    permutes s s' /\
    (up_inv (keys s) j (length (queue s)) ->
     heapN (keys s') (length (queue s))).
Proof.
  induction fuel as [|fuel IH]; intros s j Hw Hj Hf; [lia|].
  cbn [heap.up_loop].
  destruct (decide (j = 0%nat)) as [->|Hj0].
  { exists s. split; [done|]. split; [by apply permutes_refl|]. apply up_inv_root. }
  rewrite parent_Z by lia.
  set (i := ((j - 1) / 2)%nat).
  pose proof (child_parent j ltac:(lia)) as Hc. fold i in Hc.
  assert (Hij : (i < j)%nat) by idx.
  destruct (Z.eqb_spec (Z.of_nat i) (Z.of_nat j)) as [E|_]; [lia|].
  destruct (lookup_lt_is_Some_2 (queue s) j Hj) as [pj Hpj].
  destruct (lookup_lt_is_Some_2 (queue s) i ltac:(lia)) as [pi Hpi].
  rewrite (bind_ok _ _ _ _ _ (Less_spec _ _ _ _ _ Hw Hpj Hpi)).
  pose proof (keys_lookup _ _ _ Hpj) as Hkj.
  pose proof (keys_lookup _ _ _ Hpi) as Hki.
  destruct (Z.ltb_spec (key_of (objs s) pj) (key_of (objs s) pi)) as [Hlt|Hge]; cbn [negb].
  - destruct (Swap_spec s i j pi pj Hw ltac:(lia) Hpi Hpj) as (s1 & Hrun & Hq & Hp1 & Hsw).
    rewrite (bind_ok _ _ _ _ _ Hrun).
    destruct Hp1 as (Hw1 & Hl1 & Hm1 & Hr1).
    destruct (IH s1 i Hw1 ltac:(lia) ltac:(lia)) as (s' & Hrun' & Hp' & Hh').
    exists s'. split; [done|]. split.
    + eapply permutes_trans; [|done]. done.
    + intros Hinv. rewrite <- Hl1. apply Hh'. rewrite Hl1.
      eapply up_inv_swap; eauto.
  - exists s. split; [done|]. split; [by apply permutes_refl|].
    intros Hinv. eapply up_inv_done; [done|].
    intros i' Hi' a b Ha Hb.
    rewrite (child_parent_eq _ _ Hi') in Ha. fold i in Ha.
    assert (a = key_of (objs s) pi) by congruence.
    assert (b = key_of (objs s) pj) by congruence. lia.
Qed.

Lemma pick_child s (i n : nat) :
  wfq s -> (n <= length (queue s))%nat -> (2 * i + 1 < n)%nat ->
  exists (j : nat) (r : bool),
    (if Z.of_nat (2 * i + 1) + 1 <? Z.of_nat n
     then expirationQueue.Less (Z.of_nat (2 * i + 1) + 1) (Z.of_nat (2 * i + 1))
     else ret false) s = (Ok r, s) /\
    (if r then Z.of_nat (2 * i + 1) + 1 else Z.of_nat (2 * i + 1)) = Z.of_nat j /\
    child i j /\ (j < n)%nat /\
    (forall c, child i c -> (c < n)%nat -> le_at (keys s) j c).
Proof.
  intros Hw Hn H1.
  destruct (lookup_lt_is_Some_2 (queue s) (2 * i + 1) ltac:(lia)) as [p1 Hp1].
  pose proof (keys_lookup _ _ _ Hp1) as Hk1.
  destruct (Z.ltb_spec (Z.of_nat (2 * i + 1) + 1) (Z.of_nat n)) as [H2|H2].
  - destruct (lookup_lt_is_Some_2 (queue s) (2 * i + 2) ltac:(lia)) as [p2 Hp2].
    pose proof (keys_lookup _ _ _ Hp2) as Hk2.
    replace (Z.of_nat (2 * i + 1) + 1) with (Z.of_nat (2 * i + 2)) by lia.
    rewrite (Less_spec _ _ _ _ _ Hw Hp2 Hp1).
    destruct (Z.ltb_spec (key_of (objs s) p2) (key_of (objs s) p1)) as [Hlt|Hge].
    + exists (2 * i + 2)%nat, true. split; [done|]. split; [done|].
      split; [idx|]. split; [lia|].
      intros c Hc Hcn a b Ha Hb. assert (a = key_of (objs s) p2) by congruence.
      destruct Hc as [-> | ->].
      * assert (b = key_of (objs s) p1) by congruence. lia.
      * assert (b = key_of (objs s) p2) by congruence. lia.
    + exists (2 * i + 1)%nat, false. split; [done|]. split; [lia|].
      split; [idx|]. split; [lia|].
      intros c Hc Hcn a b Ha Hb. assert (a = key_of (objs s) p1) by congruence.
      destruct Hc as [-> | ->].
      * assert (b = key_of (objs s) p1) by congruence. lia.
      * assert (b = key_of (objs s) p2) by congruence. lia.
  - exists (2 * i + 1)%nat, false. split; [done|]. split; [done|].
    split; [idx|]. split; [lia|].
    intros c Hc Hcn a b Ha Hb. assert (c = (2 * i + 1)%nat) by idx. subst c.
    assert (a = b) by congruence. lia.
Qed.

Lemma down_loop_spec fuel : forall s (i n : nat),
  wfq s -> (n <= length (queue s))%nat -> (0 < fuel)%nat -> (n < fuel + i)%nat ->
  exists s' (i' : nat),
    heap.down_loop fuel (Z.of_nat i) (Z.of_nat n) s = (Ok (Z.of_nat i'), s') /\
    permutes s s' /\ (i <= i')%nat /\
    (forall k, (n <= k)%nat -> queue s' !! k = queue s !! k) /\
    (down_inv (keys s) i n -> heapN (keys s') n) /\
    (i' = i -> s' = s /\ forall c, child i c -> (c < n)%nat -> le_at (keys s) i c) /\
    (i' <> i -> exists c a b, child i c /\ (c < n)%nat /\
                  keys s !! i = Some a /\ keys s !! c = Some b /\ b < a).
Proof.
  induction fuel as [|fuel IH]; intros s i n Hw Hn Hf0 Hf; [lia|].
  cbn [heap.down_loop].
  replace (2 * Z.of_nat i + 1) with (Z.of_nat (2 * i + 1)) by lia.
  destruct (Z.leb_spec (Z.of_nat n) (Z.of_nat (2 * i + 1))) as [Hle|Hlt]; cbn [orb].
  { exists s, i. split; [done|]. split; [by apply permutes_refl|].
    split; [lia|]. split; [done|]. split.
    - intros Hinv. eapply down_inv_done; [done|]. intros c Hc Hcn. idx.
    - split; [|done]. intros _. split; [done|]. intros c Hc Hcn. idx. }
  destruct (Z.ltb_spec (Z.of_nat (2 * i + 1)) 0) as [?|_]; [lia|].
  destruct (pick_child s i n Hw Hn ltac:(lia)) as (j & r & Hpick & Hj & Hc & Hjn & Hmin).
  rewrite (bind_ok _ _ _ _ _ Hpick). rewrite Hj.
  destruct (lookup_lt_is_Some_2 (queue s) j ltac:(lia)) as [pj Hpj].
  destruct (lookup_lt_is_Some_2 (queue s) i ltac:(idx)) as [pi Hpi].
  rewrite (bind_ok _ _ _ _ _ (Less_spec _ _ _ _ _ Hw Hpj Hpi)).
  pose proof (keys_lookup _ _ _ Hpj) as Hkj.
  pose proof (keys_lookup _ _ _ Hpi) as Hki.
  destruct (Z.ltb_spec (key_of (objs s) pj) (key_of (objs s) pi)) as [Hlt'|Hge]; cbn [negb].
  - destruct (Swap_spec s i j pi pj Hw ltac:(idx) Hpi Hpj) as (s1 & Hrun & Hq & Hp1 & Hsw).
    rewrite (bind_ok _ _ _ _ _ Hrun).
    pose proof Hp1 as (Hw1 & Hl1 & Hm1 & Hr1).
    destruct (IH s1 j n Hw1 ltac:(lia) ltac:(idx) ltac:(idx))
      as (s' & i' & Hrun' & Hp' & Hi' & Hk' & Hh' & _ & _).
    exists s', i'. split; [done|]. split; [eapply permutes_trans; done|].
    split; [idx|]. split; [|split; [|split]].
    + intros k Hk. rewrite Hk' by done. rewrite Hq.
      rewrite !list_lookup_insert_ne by idx. done.
    + intros Hinv. apply Hh'. eapply down_inv_swap; eauto.
    + intros ->. idx.
    + intros _. exists j. eauto 10.
  - exists s, i. split; [done|]. split; [by apply permutes_refl|].
    split; [lia|]. split; [done|].
    assert (Hch : forall c, child i c -> (c < n)%nat -> le_at (keys s) i c).
    { intros c Hcc Hcn a b Ha Hb.
      destruct (lookup_lt_is_Some_2 (keys s) j ltac:(rewrite keys_length; lia)) as [kj Hkj'].
      assert (kj <= b) by (eapply (Hmin c); eauto).
      assert (a = key_of (objs s) pi) by congruence.
      assert (kj = key_of (objs s) pj) by congruence. lia. }
    split; [|split; [done|done]].
    intros Hinv. eapply down_inv_done; eauto.
Qed.

Lemma up_spec s (j : nat) :
  wfq s -> (j < length (queue s))%nat ->
  exists s',
    heap.up (Z.of_nat j) s = (Ok tt, s') /\
    permutes s s' /\
    (up_inv (keys s) j (length (queue s)) ->
     heapN (keys s') (length (queue s))).
Proof.
  intros Hw Hj. unfold heap.up. rewrite Nat2Z.id.
  apply up_loop_spec; auto.
Qed.

Lemma down_spec s (i n : nat) :
  wfq s -> (n <= length (queue s))%nat ->
  exists s' (moved : bool),
    heap.down (Z.of_nat i) (Z.of_nat n) s = (Ok moved, s') /\
    permutes s s' /\
    (forall k, (n <= k)%nat -> queue s' !! k = queue s !! k) /\
    (down_inv (keys s) i n -> heapN (keys s') n) /\
    (moved = false ->
     s' = s /\ forall c, child i c -> (c < n)%nat -> le_at (keys s) i c) /\
    (moved = true ->
     exists c a b, child i c /\ (c < n)%nat /\
                   keys s !! i = Some a /\ keys s !! c = Some b /\ b < a).
Proof.
  intros Hw Hn. unfold heap.down. rewrite Nat2Z.id.
  destruct (down_loop_spec (S n) s i n Hw Hn ltac:(lia) ltac:(lia))
    as (s' & i' & Hrun & Hp & Hi & Hk & Hh & Hsame & Hmoved).
  rewrite (bind_ok _ _ _ _ _ Hrun). unfold ret.
  exists s', (Z.of_nat i <? Z.of_nat i').
  split; [done|]. split; [done|]. split; [done|]. split; [done|].
  destruct (Z.ltb_spec (Z.of_nat i) (Z.of_nat i')); split; try done.
  - intros _. apply Hmoved. lia.
  - intros _. apply Hsame. lia.
Qed.

(** [Fix] and [up]/[down] at the index [-1] of an entry that is off the
    queue touch nothing. *)
Lemma Fix_off_queue s : heap.Fix (-1) s = (Ok tt, s).
Proof.
  unfold heap.Fix, expirationQueue.Len, heap.down, heap.up, bind.
  cbn [heap.down_loop]. rewrite orb_true_r. reflexivity.
Qed.

Lemma Fix_spec s (i : nat) :
  wfq s -> (i < length (queue s))%nat ->
  fix_inv (keys s) i (length (queue s)) ->
  exists s',
    heap.Fix (Z.of_nat i) s = (Ok tt, s') /\
    permutes s s' /\
    heapN (keys s') (length (queue s)).
Proof.
  intros Hw Hi Hinv. unfold heap.Fix.
  unfold expirationQueue.Len at 1. unfold bind at 1.
  destruct (down_spec s i (length (queue s)) Hw ltac:(lia))
    as (s1 & moved & Hrun & Hp & _ & Hh & Hsame & Hmoved).
  rewrite (bind_ok _ _ _ _ _ Hrun).
  destruct moved; cbn [negb].
  - exists s1. split; [done|]. split; [done|].
    apply Hh. apply fix_inv_down; [done|].
    destruct (Hmoved eq_refl) as (c & a & b & Hc & Hcn & Ha & Hb & Hlt).
    intros g Hg x y Hx Hy.
    assert (y = a) by congruence. subst y.
    assert (x <= b) by (eapply (proj2 Hinv g c); eauto). lia.
  - destruct (Hsame eq_refl) as (-> & Hch).
    destruct (up_spec s i Hw Hi) as (s' & Hrun' & Hp' & Hh').
    exists s'. split; [done|]. split; [done|].
    apply Hh'. now apply fix_inv_up.
Qed.

Lemma withIndex_same e : withIndex e (index e) = e.
Proof. now destruct e. Qed.

Lemma Swap_same s (i : nat) p :
  wfq s -> queue s !! i = Some p ->
  expirationQueue.Swap (Z.of_nat i) (Z.of_nat i) s = (Ok tt, s).
Proof.
  intros Hw Hi. destruct (wfq_obj _ _ _ Hw Hi) as (e & He & Hie).
  pose proof (lookup_lt_Some _ _ _ Hi) as Hl.
  unfold expirationQueue.Swap.
  rewrite (bind_ok _ _ _ _ _ (elemAt_ok _ _ _ Hi)).
  rewrite (bind_ok _ _ _ _ _ (elemAt_ok _ _ _ Hi)).
  rewrite (bind_ok _ _ _ _ _ (storeAt_ok _ _ _ Hl)).
  rewrite !(list_insert_id _ _ _ Hi).
  erewrite bind_ok; [|apply storeAt_ok; done]. cbn [queue objs].
  rewrite !(list_insert_id _ _ _ Hi).
  erewrite bind_ok; [|apply elemAt_ok; done].
  erewrite bind_ok; [|apply setIndex_ok; done]. cbn [queue objs].
  erewrite bind_ok; [|apply elemAt_ok; done].
  erewrite setIndex_ok; [|cbn [objs]; apply lookup_insert_eq].
  cbn [queue objs]. rewrite insert_insert_eq.
  rewrite <- Hie, !withIndex_same. rewrite insert_id by done.
  now destruct s.
Qed.

(** ** [heap.Push] and [heap.Pop] *)

Lemma Push_spec s x e :
  wfq s -> x ∉ queue s -> objs s !! x = Some e ->
  exists s',
    heap.Push x s = (Ok tt, s') /\
    wfq s' /\
    length (queue s') = S (length (queue s)) /\
    (forall p, p ∈ queue s' <-> p = x \/ p ∈ queue s) /\
    reindexed (x :: queue s) (objs s) (objs s') /\
    (heapN (keys s) (length (queue s)) ->
     heapN (keys s') (length (queue s'))).
Proof.
  intros Hw Hx He.
  set (n := length (queue s)).
  set (s1 := {| objs := <[x := withIndex e (Z.of_nat n)]> (objs s);
                queue := queue s ++ [x] |}).
  assert (Hrun1 : expirationQueue.Push x s = (Ok tt, s1)).
  { unfold expirationQueue.Push, expirationQueue.Len. unfold bind at 1.
    erewrite bind_ok; [|apply setIndex_ok; done]. done. }
  assert (Hother : forall p, p ∈ queue s -> objs s1 !! p = objs s !! p).
  { intros p Hp. cbn [s1 objs]. rewrite lookup_insert_ne; [done|]. congruence. }
  assert (Hw1 : wfq s1).
  { split; cbn [s1 queue].
    - apply NoDup_app. split; [apply Hw|]. split; [|apply NoDup_singleton].
      intros p Hp Hp'. apply list_elem_of_singleton in Hp'. congruence.
    - intros k p Hk. apply lookup_app_Some in Hk as [Hk|[Hlen Hk]].
      + rewrite Hother by (eapply list_elem_of_lookup_2; eauto).
        eapply wfq_obj; eauto.
      + destruct (k - length (queue s))%nat eqn:E; [|done].
        cbn in Hk. assert (p = x) by congruence. subst p.
        cbn [s1 objs]. rewrite lookup_insert_eq. eexists. split; [done|].
        cbn. fold n. lia. }
  assert (Hk1 : keys s1 = keys s ++ [unixExpiryTime e]).
  { unfold keys. cbn [s1 queue]. rewrite fmap_app. f_equal.
    - apply list_fmap_ext. intros k p Hk. unfold key_of.
      now rewrite Hother by (eapply list_elem_of_lookup_2; eauto).
    - cbn. unfold key_of. cbn [s1 objs]. now rewrite lookup_insert_eq. }
  assert (Hl1 : length (queue s1) = S n).
  { cbn [s1 queue]. rewrite length_app. cbn. fold n. lia. }
  destruct (up_spec s1 n Hw1 ltac:(lia)) as (s' & Hrun' & Hp' & Hh').
  exists s'. unfold heap.Push.
  rewrite (bind_ok _ _ _ _ _ Hrun1).
  unfold expirationQueue.Len. unfold bind at 1. rewrite Hl1.
  replace (Z.of_nat (S n) - 1) with (Z.of_nat n) by lia.
  destruct Hp' as (Hw' & Hl' & Hm' & Hr').
  split; [done|]. split; [done|]. split; [congruence|]. split; [|split].
  - intros p. rewrite Hm'. cbn [s1 queue]. rewrite elem_of_app, list_elem_of_singleton.
    tauto.
  - eapply reindexed_trans with (m2 := objs s1).
    + intros p. cbn [s1 objs]. repeat split.
      * intros Hp. rewrite lookup_insert_ne; [done|].
        intros ->. apply Hp. left.
      * intros e' He'. destruct (decide (p = x)) as [->|Hne].
        { rewrite lookup_insert_eq. eexists. split; [done|].
          assert (e' = e) by congruence. subst. done. }
        rewrite lookup_insert_ne by done. exists e'. done.
      * intros Hn. rewrite lookup_insert_ne; [done|]. congruence.
    + eapply reindexed_weaken; [|done]. intros p. cbn [s1 queue].
      rewrite elem_of_app, list_elem_of_singleton, elem_of_cons. tauto.
  - intros Hh. rewrite Hl', Hl1. rewrite Hl1 in Hh'. apply Hh'.
    rewrite Hk1. unfold n. rewrite <- keys_length.
    apply heapN_snoc_up_inv. now rewrite keys_length.
Qed.

(** The exchange of the root with the last entry, as [heap.Pop] starts. *)
Lemma Pop_swap s p0 :
  wfq s -> queue s !! 0%nat = Some p0 ->
  heapN (keys s) (length (queue s)) ->
  exists s1,
    expirationQueue.Swap 0 (Z.of_nat (length (queue s) - 1)) s = (Ok tt, s1) /\
    permutes s s1 /\
    queue s1 !! (length (queue s) - 1)%nat = Some p0 /\
    down_inv (keys s1) 0 (length (queue s) - 1).
Proof.
  intros Hw H0 Hh.
  pose proof (lookup_lt_Some _ _ _ H0) as Hlen.
  set (n := (length (queue s) - 1)%nat).
  destruct (decide (n = 0%nat)) as [En|Hn].
  - exists s. rewrite En. split; [apply (Swap_same s 0 p0); done|].
    split; [by apply permutes_refl|]. split; [done|].
    split; [intros; lia | intros; lia].
  - destruct (lookup_lt_is_Some_2 (queue s) n ltac:(lia)) as [pl Hpl].
    destruct (Swap_spec s 0 n p0 pl Hw ltac:(lia) H0 Hpl) as (s1 & Hrun & Hq & Hp & Hsw).
    exists s1. split; [done|]. split; [done|]. split.
    + rewrite Hq. apply list_lookup_insert_eq. rewrite length_insert. lia.
    + split.
      * intros a c Hac Hc Ha x y Hx Hy.
        swap_at Hsw Hx; swap_at Hsw Hy.
        eapply (Hh a c); eauto. lia.
      * intros g c Hg. idx.
Qed.

Lemma Pop_spec s p0 :
  wfq s -> queue s !! 0%nat = Some p0 ->
  heapN (keys s) (length (queue s)) ->
  exists s',
    heap.Pop s = (Ok p0, s') /\
    wfq s' /\
    length (queue s) = S (length (queue s')) /\
    (forall p, p ∈ queue s <-> p = p0 \/ p ∈ queue s') /\
    (p0 ∉ queue s') /\
    reindexed (queue s) (objs s) (objs s') /\
    (exists e, objs s' !! p0 = Some e /\ index e = -1) /\
    heapN (keys s') (length (queue s')).
Proof.
  intros Hw H0 Hh.
  pose proof (lookup_lt_Some _ _ _ H0) as Hlen.
  set (n := (length (queue s) - 1)%nat).
  destruct (Pop_swap s p0 Hw H0 Hh) as (s1 & Hrun1 & Hp1 & Hlast1 & Hinv1).
  fold n in Hrun1, Hlast1, Hinv1.
  pose proof Hp1 as (Hw1 & Hl1 & Hm1 & Hr1).
  destruct (down_spec s1 0 n Hw1 ltac:(lia))
    as (s2 & moved & Hrun2 & Hp2 & Hk2 & Hh2 & _ & _).
  pose proof Hp2 as (Hw2 & Hl2 & Hm2 & Hr2).
  assert (Hlast2 : queue s2 !! n = Some p0) by (rewrite Hk2; [done|lia]).
  destruct (wfq_obj _ _ _ Hw2 Hlast2) as (e2 & He2 & _).
  set (s3 := {| objs := <[p0 := withIndex e2 (-1)]> (objs s2);
                queue := take n (queue s2) |}).
  assert (Hrun3 : expirationQueue.Pop s2 = (Ok p0, s3)).
  { unfold expirationQueue.Pop, expirationQueue.Len. unfold bind at 1.
    replace (Z.of_nat (length (queue s2)) - 1) with (Z.of_nat n) by lia.
    rewrite (bind_ok _ _ _ _ _ (elemAt_ok _ _ _ Hlast2)).
    erewrite bind_ok; [|apply setIndex_ok; done].
    cbn [queue objs]. now rewrite Nat2Z.id. }
  assert (Hrun : heap.Pop s = (Ok p0, s3)).
  { unfold heap.Pop. unfold expirationQueue.Len at 1. unfold bind at 1.
    replace (Z.of_nat (length (queue s)) - 1) with (Z.of_nat n) by lia.
    change 0 with (Z.of_nat 0).
    rewrite (bind_ok _ _ _ _ _ Hrun1). rewrite (bind_ok _ _ _ _ _ Hrun2). done. }
  assert (Hin3 : forall p, p ∈ queue s3 <-> exists k, (k < n)%nat /\ queue s2 !! k = Some p).
  { intros p. cbn [s3 queue]. rewrite elem_of_take. split; intros (k & ? & ?); eauto. }
  assert (Hnot : p0 ∉ queue s3).
  { rewrite Hin3. intros (k & Hk & Hkp).
    pose proof (wfq_inj _ _ _ _ Hw2 Hkp Hlast2). lia. }
  assert (Hother : forall p, p ∈ queue s3 -> objs s3 !! p = objs s2 !! p).
  { intros p Hp. cbn [s3 objs]. rewrite lookup_insert_ne; [done|]. congruence. }
  exists s3. split; [done|]. split; [|split; [|split; [|split; [|split; [|split]]]]].
  - split.
    + cbn [s3 queue]. apply NoDup_alt. intros a b p Ha Hb.
      apply lookup_take_Some in Ha as [Ha _]. apply lookup_take_Some in Hb as [Hb _].
      eapply wfq_inj; eauto.
    + intros k p Hk. rewrite Hother by (eapply list_elem_of_lookup_2; eauto).
      cbn [s3 queue] in Hk. apply lookup_take_Some in Hk as [Hk _].
      eapply wfq_obj; eauto.
  - cbn [s3 queue]. rewrite length_take. lia.
  - intros p. rewrite <- Hm1, <- Hm2, Hin3, list_elem_of_lookup. split.
    + intros [k Hk]. pose proof (lookup_lt_Some _ _ _ Hk).
      destruct (decide (k = n)) as [->|Hne]; [left; congruence|].
      right. exists k. split; [lia|done].
    + intros [->|(k & _ & Hk)]; eauto.
  - done.
  - eapply reindexed_trans with (m2 := objs s2).
    + destruct (permutes_trans _ _ _ Hp1 Hp2) as (_ & _ & _ & Hr). exact Hr.
    + intros p. cbn [s3 objs]. repeat split.
      * intros Hp. rewrite lookup_insert_ne; [done|]. intros ->. apply Hp.
        apply Hm1, Hm2. eapply list_elem_of_lookup_2; eauto.
      * intros e' He'. destruct (decide (p = p0)) as [->|Hne].
        { rewrite lookup_insert_eq. eexists. split; [done|].
          assert (e' = e2) by congruence. subst. done. }
        rewrite lookup_insert_ne by done. exists e'. done.
      * intros Hn. rewrite lookup_insert_ne; [done|]. congruence.
  - cbn [s3 objs]. rewrite lookup_insert_eq. eauto.
  - assert (Hk3 : keys s3 = take n (keys s2)).
    { unfold keys. cbn [s3 queue]. rewrite <- fmap_take.
      apply list_fmap_ext. intros k p Hk. unfold key_of.
      now rewrite Hother by (eapply list_elem_of_lookup_2; eauto). }
    rewrite Hk3. cbn [s3 queue]. rewrite length_take.
    replace (n `min` length (queue s2))%nat with n by lia.
    apply heapN_take. apply Hh2. done.
Qed.

(** ** The cache invariant *)

Lemma qstate_of_with_qstate c s : qstate_of (with_qstate c s) = s.
Proof. now destruct s. Qed.

Lemma reindexed_payload l m m' p :
  reindexed l m m' -> payload <$> m' !! p = payload <$> m !! p.
Proof.
  intros H. destruct (H p) as (_ & Hs & Hn).
  destruct (m !! p) as [e|] eqn:E.
  - destruct (Hs e eq_refl) as (e' & -> & [Hk Ht]). cbn. unfold payload. congruence.
  - now rewrite (Hn eq_refl).
Qed.

Lemma payload_eq (m m' : gmap loc itemExpiry) p e e' :
  payload <$> m' !! p = payload <$> m !! p ->
  m !! p = Some e -> m' !! p = Some e' ->
  itemKey e' = itemKey e /\ unixExpiryTime e' = unixExpiryTime e.
Proof.
  intros H He He'. rewrite He, He' in H. cbn in H. unfold payload in H.
  split; congruence.
Qed.

Lemma payload_Some (m m' : gmap loc itemExpiry) p e :
  payload <$> m' !! p = payload <$> m !! p ->
  m !! p = Some e -> exists e', m' !! p = Some e'.
Proof.
  intros H He. rewrite He in H. destruct (m' !! p); [eauto|done].
Qed.

Lemma wfq_on_queue s p e :
  wfq s -> p ∈ queue s -> objs s !! p = Some e ->
  0 <= index e /\ lookupZ (queue s) (index e) = Some p.
Proof.
  intros Hw Hp He. apply list_elem_of_lookup in Hp as [i Hi].
  destruct (wfq_obj _ _ _ Hw Hi) as (e' & He' & Hidx).
  assert (e' = e) by congruence. subst e'.
  rewrite Hidx, lookupZ_nat. split; [lia|done].
Qed.

Lemma lookupZ_elem_of {A} (l : list A) i x : lookupZ l i = Some x -> x ∈ l.
Proof.
  intros H. apply lookupZ_Some in H as (n & _ & Hn).
  eapply list_elem_of_lookup_2; eauto.
Qed.

Lemma tracked_off_queue em s k p e :
  wfq s -> tracked em s -> em !! k = Some p -> objs s !! p = Some e ->
  p ∉ queue s -> index e = -1.
Proof.
  intros Hw Ht Hk He Hp. destruct (Ht k p Hk) as (e' & He' & _ & [Hi|Hi]).
  - congruence.
  - exfalso. apply Hp. eapply lookupZ_elem_of; eauto.
Qed.

(** What one [Set] does to the queue and the map, in the three cases alike:
    [p] is the entry of [k] afterwards. *)
Lemma Set_frame_wf c c1 k p t ep :
  wf_cache c ->
  wfq (qstate_of c1) ->
  heapN (keys (qstate_of c1)) (length (expirations c1)) ->
  expiryMap c1 = <[k := p]> (expiryMap c) ->
  mem c1 !! p = Some ep -> itemKey ep = k -> unixExpiryTime ep = t ->
  (forall p', p' <> p -> payload <$> mem c1 !! p' = payload <$> mem c !! p') ->
  (forall p', p' ∉ expirations c1 -> index <$> mem c1 !! p' = index <$> mem c !! p') ->
  (forall p', p' <> p -> p' ∈ expirations c1 <-> p' ∈ expirations c) ->
  (p ∈ expirations c -> p ∈ expirations c1) ->
  (expiryMap c !! k = None /\ mem c !! p = None /\ p ∈ expirations c1
   \/ expiryMap c !! k = Some p) ->
  linked (expiryMap c1) (qstate_of c1) /\
  tracked (expiryMap c1) (qstate_of c1) /\
  (forall m st cachedAt,
     stored (Some m) (qstate_of c) ->
     stored (Some (<[k := {| stateObject := st; cachedAt := cachedAt; expiresAt := t |}]> m))
            (qstate_of c1)).
Proof.
  intros (Hw & Hh & Hlk & Htr & Hst) Hw1 Hh1 Hem Hp Hpk Hpt Hpay Hidx Hmem Hmemp Hold.
  assert (Hkp : forall p', p' <> p -> p' ∈ expirations c ->
            forall e0, mem c !! p' = Some e0 -> itemKey e0 <> k).
  { intros p' Hne Hin e0 He0 Hk0.
    destruct (Hlk p' Hin) as (e & He & Hl). cbn in He.
    assert (e = e0) by congruence. subst e. rewrite Hk0 in Hl.
    destruct Hold as [(Hn & _)|Hs]; congruence. }
  split; [|split].
  - intros p' Hin. cbn in Hin. cbn [qstate_of objs]. rewrite Hem.
    destruct (decide (p' = p)) as [->|Hne].
    { exists ep. split; [done|]. rewrite Hpk. apply lookup_insert_eq. }
    apply Hmem in Hin; [|done].
    destruct (Hlk p' Hin) as (e0 & He0 & Hl). cbn in He0.
    destruct (payload_Some _ _ _ _ (Hpay p' Hne) He0) as [e1 He1].
    destruct (payload_eq _ _ _ _ _ (Hpay p' Hne) He0 He1) as [Hk1 _].
    exists e1. split; [done|]. rewrite Hk1.
    rewrite lookup_insert_ne; [done|]. intros E. eapply Hkp; eauto.
  - intros k' p' Hk'. rewrite Hem in Hk'. cbn [qstate_of objs queue].
    assert (Hcase : exists e1, mem c1 !! p' = Some e1 /\ itemKey e1 = k' /\
              (p' ∉ expirations c1 -> index e1 = -1)).
    { destruct (decide (k' = k)) as [->|Hkk].
      - rewrite lookup_insert_eq in Hk'. assert (p' = p) by congruence. subst p'.
        exists ep. split; [done|]. split; [done|]. intros Hnin.
        destruct Hold as [(_ & _ & Hin)|Hs]; [done|].
        destruct (Htr k p Hs) as (e0 & He0 & _ & _). cbn in He0.
        assert (index e0 = -1).
        { eapply (tracked_off_queue _ (qstate_of c)); eauto. }
        pose proof (Hidx p Hnin) as E. rewrite Hp, He0 in E. cbn in E. congruence.
      - rewrite lookup_insert_ne in Hk' by done.
        destruct (Htr k' p' Hk') as (e0 & He0 & Hk0 & _). cbn in He0.
        assert (Hne : p' <> p).
        { intros ->. destruct Hold as [(_ & Hn & _)|Hs]; [congruence|].
          destruct (Htr k p Hs) as (e & He & Hke & _). cbn in He. congruence. }
        destruct (payload_Some _ _ _ _ (Hpay p' Hne) He0) as [e1 He1].
        destruct (payload_eq _ _ _ _ _ (Hpay p' Hne) He0 He1) as [Hk1 _].
        exists e1. split; [done|]. split; [congruence|]. intros Hnin.
        assert (index e0 = -1).
        { eapply (tracked_off_queue _ (qstate_of c)); eauto.
          cbn. rewrite <- Hmem; done. }
        pose proof (Hidx p' Hnin) as E. rewrite He1, He0 in E. cbn in E. congruence. }
    destruct Hcase as (e1 & He1 & Hk1 & Hoff).
    exists e1. split; [done|]. split; [done|].
    destruct (decide (p' ∈ expirations c1)) as [Hin|Hnin]; [|left; auto].
    right. eapply (wfq_on_queue (qstate_of c1)); eauto.
  - intros m st cachedAt Hstm p' e1 m' Hin He1 Hm'. cbn in Hin, He1.
    assert (m' = <[k := {| stateObject := st; cachedAt := cachedAt; expiresAt := t |}]> m)
      by congruence. subst m'.
    destruct (decide (p' = p)) as [->|Hne].
    { assert (e1 = ep) by congruence. subst e1. rewrite Hpk.
      rewrite lookup_insert_eq. eexists. split; [done|]. cbn. congruence. }
    apply Hmem in Hin; [|done].
    destruct (Hlk p' Hin) as (e0 & He0 & _). cbn in He0.
    destruct (payload_eq _ _ _ _ _ (Hpay p' Hne) He0 He1) as [Hk1 Ht1].
    destruct (Hstm p' e0 m Hin He0 eq_refl) as (it & Hit & Hexp).
    exists it. rewrite Hk1, Ht1. split; [|done].
    rewrite lookup_insert_ne; [done|]. intros E. eapply Hkp; eauto.
Qed.

(** ** The branch of [Set] on [expiryMap] *)

Lemma setExpiry_ok s p e t :
  objs s !! p = Some e ->
  setExpiry p t s = (Ok tt, {| objs := <[p := withExpiry e t]> (objs s); queue := queue s |}).
Proof. intros H. unfold setExpiry. now rewrite H. Qed.

Lemma refresh_off_queue s p e t :
  objs s !! p = Some e -> index e = -1 ->
  refresh p t s = (Ok tt, {| objs := <[p := withExpiry e t]> (objs s); queue := queue s |}).
Proof.
  intros He Hi. unfold refresh.
  rewrite (bind_ok _ _ _ _ _ (setExpiry_ok _ _ _ t He)).
  erewrite bind_ok; [|apply load_ok; cbn [objs]; apply lookup_insert_eq].
  cbn [withExpiry index]. rewrite Hi. apply Fix_off_queue.
Qed.

Lemma refresh_on_queue s p (i : nat) e t :
  wfq s -> heapN (keys s) (length (queue s)) ->
  queue s !! i = Some p -> objs s !! p = Some e ->
  exists s',
    refresh p t s = (Ok tt, s') /\
    permutes {| objs := <[p := withExpiry e t]> (objs s); queue := queue s |} s' /\
    heapN (keys s') (length (queue s)).
Proof.
  intros Hw Hh Hi He.
  set (s1 := {| objs := <[p := withExpiry e t]> (objs s); queue := queue s |}).
  destruct (wfq_obj _ _ _ Hw Hi) as (e' & He' & Hidx).
  assert (e' = e) by congruence. subst e'.
  pose proof (lookup_lt_Some _ _ _ Hi) as Hlen.
  assert (Hw1 : wfq s1).
  { split; [apply Hw|]. intros j p' Hj. cbn [s1 queue objs] in *.
    destruct (decide (p' = p)) as [->|Hne].
    - rewrite lookup_insert_eq. eexists. split; [done|].
      cbn. rewrite Hidx. f_equal. eapply wfq_inj; eauto.
    - rewrite lookup_insert_ne by done. eapply wfq_obj; eauto. }
  assert (Hk1 : keys s1 = <[i := t]> (keys s)).
  { apply list_eq. intros j. unfold keys. cbn [s1 queue objs].
    destruct (decide (j = i)) as [->|Hne].
    - rewrite list_lookup_insert_eq by (rewrite length_fmap; done).
      rewrite list_lookup_fmap, Hi. cbn. unfold key_of.
      now rewrite lookup_insert_eq.
    - rewrite list_lookup_insert_ne by done. rewrite !list_lookup_fmap.
      destruct (queue s !! j) as [p'|] eqn:Hj; [|done]. cbn. f_equal.
      unfold key_of. rewrite lookup_insert_ne; [done|].
      intros ->. apply Hne. eapply wfq_inj; eauto. }
  destruct (Fix_spec s1 i Hw1 Hlen) as (s' & Hrun & Hp & Hh').
  { rewrite Hk1. cbn [s1 queue]. apply heapN_fix_inv; [done|done|].
    now rewrite keys_length. }
  exists s'. split; [|done].
  unfold refresh.
  rewrite (bind_ok _ _ _ _ _ (setExpiry_ok _ _ _ t He)). fold s1.
  erewrite bind_ok; [|apply load_ok; cbn [s1 objs]; apply lookup_insert_eq].
  cbn [withExpiry index]. now rewrite Hidx.
Qed.

Lemma trackExpiry_new c k t :
  wf_cache c -> expiryMap c !! k = None ->
  exists c1 p, trackExpiry k t c = (Ok tt, c1) /\ branch_post c c1 k t p.
Proof.
  intros (Hw & Hh & Hlk & Htr & Hst) Hk.
  unfold trackExpiry. rewrite Hk. unfold newExpiry.
  set (p := fresh (dom (mem c))).
  assert (Hfresh : mem c !! p = None).
  { apply not_elem_of_dom. apply is_fresh. }
  set (e0 := {| itemKey := k; unixExpiryTime := t; index := 0 |}).
  set (c0 := setExpiryMap k p _).
  assert (Hnot : p ∉ expirations c).
  { intros Hin. destruct (Hlk p Hin) as (e & He & _). cbn in He. congruence. }
  assert (Hsame : forall p', p' ∈ expirations c -> <[p := e0]> (mem c) !! p' = mem c !! p').
  { intros p' Hin. rewrite lookup_insert_ne; [done|]. congruence. }
  assert (Hw0 : wfq (qstate_of c0)).
  { split; [apply Hw|]. intros j p' Hj. cbn in *.
    rewrite Hsame by (eapply list_elem_of_lookup_2; eauto).
    eapply (wfq_obj (qstate_of c)); eauto. }
  assert (Hk0 : keys (qstate_of c0) = keys (qstate_of c)).
  { unfold keys. cbn. apply list_fmap_ext. intros j p' Hj. unfold key_of.
    now rewrite Hsame by (eapply list_elem_of_lookup_2; eauto). }
  destruct (Push_spec (qstate_of c0) p e0 Hw0 Hnot)
    as (s' & Hrun & Hw' & Hl' & Hm' & Hr' & Hh').
  { cbn. apply lookup_insert_eq. }
  exists (with_qstate c0 s'), p. split.
  { unfold onQueue. now rewrite Hrun. }
  assert (Hin : p ∈ queue s') by (apply Hm'; auto).
  unfold branch_post. rewrite qstate_of_with_qstate. cbn [with_qstate items cancelled
    expiryMap mem expirations c0 setExpiryMap].
  split; [done|]. split; [done|]. split; [done|]. split.
  { apply Hh'. rewrite Hk0. exact Hh. }
  split; [done|]. split.
  { destruct (Hr' p) as (_ & Hs & _). cbn in Hs.
    destruct (Hs e0) as (ep & Hep & Hk1 & Ht1); [apply lookup_insert_eq|].
    exists ep. done. }
  split.
  { intros p' Hne. rewrite (reindexed_payload _ _ _ p' Hr'). cbn.
    now rewrite lookup_insert_ne. }
  split.
  { intros p' Hnin. destruct (Hr' p') as (Hout & _ & _).
    assert (p' <> p) by (intros ->; done).
    rewrite Hout.
    - cbn. now rewrite lookup_insert_ne.
    - cbn. rewrite elem_of_cons. intros [?|Hq]; [done|].
      apply Hnin, Hm'. auto. }
  split.
  { intros p' Hne. rewrite Hm'. cbn. tauto. }
  split; [done|]. split; [left; done|]. split; [done|].
  intros (p1 & e1 & Hp1 & _). congruence.
Qed.

Lemma trackExpiry_known c k t p :
  wf_cache c -> expiryMap c !! k = Some p ->
  exists c1, trackExpiry k t c = (Ok tt, c1) /\ branch_post c c1 k t p.
Proof.
  intros (Hw & Hh & Hlk & Htr & Hst) Hk.
  unfold trackExpiry. rewrite Hk.
  destruct (Htr k p Hk) as (e0 & He0 & Hk0 & Hcase). cbn in He0.
  set (s1 := {| objs := <[p := withExpiry e0 t]> (mem c); queue := expirations c |}).
  assert (Hem : expiryMap c = <[k := p]> (expiryMap c)) by (now rewrite insert_id).
  assert (Hpay1 : forall p', p' <> p ->
            payload <$> objs s1 !! p' = payload <$> mem c !! p').
  { intros p' Hne. cbn. now rewrite lookup_insert_ne. }
  destruct Hcase as [Hoff|Hon].
  - (* the entry is off the queue *)
    assert (Hnot : p ∉ expirations c).
    { intros Hin. destruct (wfq_on_queue (qstate_of c) p e0 Hw Hin He0). lia. }
    exists (with_qstate c s1). split.
    { unfold onQueue. now rewrite (refresh_off_queue (qstate_of c) p e0 t He0 Hoff). }
    assert (Hsame : forall p', p' ∈ expirations c -> objs s1 !! p' = mem c !! p').
    { intros p' Hin. cbn. rewrite lookup_insert_ne; [done|]. congruence. }
    unfold branch_post. rewrite qstate_of_with_qstate.
    cbn [with_qstate items cancelled expiryMap mem expirations].
    split; [done|]. split; [done|]. split.
    { split; [apply Hw|]. intros j p' Hj. cbn [s1 queue] in Hj.
      rewrite Hsame by (eapply list_elem_of_lookup_2; eauto).
      eapply (wfq_obj (qstate_of c)); eauto. }
    split.
    { replace (keys s1) with (keys (qstate_of c)); [done|].
      unfold keys. cbn. apply list_fmap_ext. intros j p' Hj. unfold key_of.
      fold (objs s1). now rewrite Hsame by (eapply list_elem_of_lookup_2; eauto). }
    split; [done|]. split.
    { exists (withExpiry e0 t). cbn. now rewrite lookup_insert_eq. }
    split; [done|]. split.
    { intros p' _. cbn. destruct (decide (p' = p)) as [->|Hne].
      - now rewrite lookup_insert_eq, He0.
      - now rewrite lookup_insert_ne. }
    split; [done|]. split; [done|]. split; [right; done|]. split; [|done].
    intros Hns. exfalso. apply Hns. exists p, e0. done.
  - (* the entry is on the queue *)
    apply lookupZ_Some in Hon as (i & Hi & Hqi).
    destruct (refresh_on_queue (qstate_of c) p i e0 t Hw Hh Hqi He0)
      as (s' & Hrun & Hp & Hh').
    fold s1 in Hp. destruct Hp as (Hw' & Hl' & Hm' & Hr'). cbn [s1 queue objs] in *.
    exists (with_qstate c s'). split.
    { unfold onQueue. now rewrite Hrun. }
    assert (Hin : p ∈ expirations c) by (eapply list_elem_of_lookup_2; eauto).
    unfold branch_post. rewrite qstate_of_with_qstate.
    cbn [with_qstate items cancelled expiryMap mem expirations].
    split; [done|]. split; [done|]. split; [done|]. split.
    { rewrite Hl'. exact Hh'. }
    split; [done|]. split.
    { destruct (Hr' p) as (_ & Hs & _).
      destruct (Hs (withExpiry e0 t)) as (ep & Hep & Hk1 & Ht1); [apply lookup_insert_eq|].
      exists ep. cbn in *. split; [done|]. split; congruence. }
    split.
    { intros p' Hne. rewrite (reindexed_payload _ _ _ p' Hr'). now apply Hpay1. }
    split.
    { intros p' Hnin. destruct (Hr' p') as (Hout & _ & _).
      assert (Hq : p' ∉ expirations c) by (rewrite <- Hm'; done).
      rewrite Hout by done. rewrite lookup_insert_ne; [done|]. congruence. }
    split; [intros p' _; apply Hm'|].
    split; [intros _; now apply Hm'|].
    split; [right; done|]. split; [intros _; now apply Hm'|].
    intros (p1 & e1 & Hp1 & He1 & Hi1).
    assert (p1 = p) by congruence. subst p1.
    assert (e1 = e0) by congruence. subst e1. lia.
Qed.

Lemma trackExpiry_spec c k t :
  wf_cache c ->
  exists c1 p, trackExpiry k t c = (Ok tt, c1) /\ branch_post c c1 k t p.
Proof.
  intros Hwf. destruct (expiryMap c !! k) as [p|] eqn:Hk.
  - destruct (trackExpiry_known c k t p Hwf Hk) as (c1 & H1 & H2). eauto.
  - now apply trackExpiry_new.
Qed.

(** ** [Set] *)

Lemma stored_None s : stored None s.
Proof. intros p e m _ _ H. done. Qed.

Lemma Set_spec st lifespan now c :
  wf_cache c ->
  exists c1 p,
    branch_post c c1 (Id st) (wrap64 (now + lifespanSeconds lifespan)) p /\
    Set_ (Some st) lifespan now c =
      match items c with
      | None => (Panic "assignment to entry in nil map"%string, c1)
      | Some m => (Ok None, with_items c1 (Some (<[Id st := newItem st lifespan now]> m)))
      end /\
    wf_cache (snd (Set_ (Some st) lifespan now c)).
Proof.
  intros Hwf.
  destruct (trackExpiry_spec c (Id st) (wrap64 (now + lifespanSeconds lifespan)) Hwf)
    as (c1 & p & Hrun & Hpost).
  exists c1, p. split; [done|].
  pose proof Hpost as (Hit & Hcn & Hw1 & Hh1 & Hem & (ep & Hep & Hpk & Hpt) & Hpay & Hidx
                       & Hmem & Hmemp & Hold & _ & _).
  destruct (Set_frame_wf c c1 (Id st) p _ ep Hwf Hw1 Hh1 Hem Hep Hpk Hpt Hpay Hidx
              Hmem Hmemp Hold) as (Hlk1 & Htr1 & Hst1).
  assert (Heq : Set_ (Some st) lifespan now c =
      match items c with
      | None => (Panic "assignment to entry in nil map"%string, c1)
      | Some m => (Ok None, with_items c1 (Some (<[Id st := newItem st lifespan now]> m)))
      end).
  { unfold Set_. rewrite Hrun, Hit. destruct (items c); done. }
  split; [done|]. rewrite Heq.
  destruct Hwf as (_ & _ & _ & _ & Hst).
  destruct (items c) as [m|] eqn:Em; cbn [snd].
  - split; [done|]. split; [done|]. split; [done|]. split; [done|].
    apply Hst1. done.
  - split; [done|]. split; [done|]. split; [done|]. split; [done|].
    rewrite Hit. apply stored_None.
Qed.

Lemma Set_wf state lifespan now c :
  wf_cache c -> wf_cache (snd (Set_ state lifespan now c)).
Proof.
  intros Hwf. destruct state as [st|]; [|done].
  destruct (Set_spec st lifespan now c Hwf) as (c1 & p & _ & _ & H). exact H.
Qed.

Lemma NewMyStateCache_eq :
  NewMyStateCache =
  {| items := Some ∅; expirations := []; expiryMap := ∅; mem := ∅; cancelled := false |}.
Proof. reflexivity. Qed.

Lemma wf_cache_empty its m b :
  wf_cache {| items := its; expirations := []; expiryMap := ∅; mem := m; cancelled := b |}.
Proof.
  split; [|split; [|split; [|split]]].
  - split; [constructor|]. intros i p H. done.
  - apply heapN_nil.
  - intros p H. cbn in H. by apply elem_of_nil in H.
  - intros k p H. cbn in H. by rewrite lookup_empty in H.
  - intros p e m' H. cbn in H. by apply elem_of_nil in H.
Qed.

Lemma New_wf : wf_cache NewMyStateCache.
Proof. rewrite NewMyStateCache_eq. apply wf_cache_empty. Qed.

Lemma Shutdown_wf c : wf_cache (Shutdown c).
Proof. apply wf_cache_empty. Qed.

(** ** [clean] *)

Lemma in_list_dec {A} (P : A -> Prop) (l : list A) :
  (forall x, P x \/ ~ P x) ->
  (exists x, x ∈ l /\ P x) \/ ~ (exists x, x ∈ l /\ P x).
Proof.
  intros HP. induction l as [|a l IH].
  - right. intros (x & Hx & _). by apply elem_of_nil in Hx.
  - destruct (HP a) as [Ha|Ha].
    + left. exists a. split; [left|done].
    + destruct IH as [(x & Hx & Hpx)|Hn].
      * left. exists x. split; [by right|done].
      * right. intros (x & Hx & Hpx). apply elem_of_cons in Hx as [->|Hx]; [done|].
        apply Hn. eauto.
Qed.

Lemma due_dec c now k : due c now k \/ ~ due c now k.
Proof.
  destruct (in_list_dec
              (fun p => exists e, mem c !! p = Some e /\ itemKey e = k /\
                                  unixExpiryTime e <= now) (expirations c))
    as [(p & Hp & e & He)|Hn].
  - intros p. destruct (mem c !! p) as [e|]; [|right; intros (e & ? & _); done].
    destruct (decide (itemKey e = k)) as [Hk|Hk];
      [|right; intros (e' & ? & ? & _); congruence].
    destruct (Z_le_dec (unixExpiryTime e) now) as [Ht|Ht];
      [left; eauto|right; intros (e' & ? & ? & ?)].
    assert (e' = e) by congruence. subst. lia.
  - left. exists p, e. tauto.
  - right. intros (p & e & Hp & He). apply Hn. exists p. split; [done|]. eauto.
Qed.

Lemma lookupItem_with_items c its k :
  lookupItem (with_items c its) k = match its with None => None | Some m => m !! k end.
Proof. reflexivity. Qed.

Lemma lookupItem_delete c k0 k :
  lookupItem (with_items c (delete k0 <$> items c)) k =
  if decide (k = k0) then None else lookupItem c k.
Proof.
  rewrite lookupItem_with_items. unfold lookupItem.
  destruct (items c) as [m|]; cbn.
  - destruct (decide (k = k0)) as [->|Hne].
    + apply lookup_delete_eq.
    + now apply lookup_delete_ne.
  - now destruct (decide (k = k0)).
Qed.

(** One round of the loop of [clean] that pops. *)
Lemma clean_pop_wf c p0 e0 s' :
  wf_cache c ->
  expirations c !! 0%nat = Some p0 -> mem c !! p0 = Some e0 ->
  heap.Pop (qstate_of c) = (Ok p0, s') ->
  wfq s' ->
  (forall p, p ∈ expirations c <-> p = p0 \/ p ∈ queue s') ->
  p0 ∉ queue s' ->
  reindexed (expirations c) (mem c) (objs s') ->
  (exists e, objs s' !! p0 = Some e /\ index e = -1) ->
  heapN (keys s') (length (queue s')) ->
  wf_cache (with_items (with_qstate c s') (delete (itemKey e0) <$> items c)).
Proof.
  intros (Hw & Hh & Hlk & Htr & Hst) Hq0 He0 Hrun Hw' Hm' Hnot Hr' (e1 & He1 & Hi1) Hh'.
  assert (Hin0 : p0 ∈ expirations c) by (eapply list_elem_of_lookup_2; eauto).
  split; [done|]. split; [done|]. split; [|split].
  - intros p Hp. cbn in Hp. assert (Hin : p ∈ expirations c) by (apply Hm'; auto).
    destruct (Hlk p Hin) as (e & He & Hl). cbn in He.
    destruct (Hr' p) as (_ & Hs & _). destruct (Hs e He) as (e' & He' & Hk & _).
    exists e'. split; [done|]. cbn. congruence.
  - intros k p Hk. cbn in Hk. destruct (Htr k p Hk) as (e & He & Hke & Hcase). cbn in He.
    destruct (Hr' p) as (Hout & Hs & _). destruct (Hs e He) as (e' & He' & Hk' & _).
    exists e'. cbn. split; [done|]. split; [congruence|].
    destruct (decide (p ∈ queue s')) as [Hin|Hnin].
    { right. now apply wfq_on_queue. }
    left. destruct (decide (p = p0)) as [->|Hne]; [congruence|].
    assert (Hnq : p ∉ expirations c).
    { intros Hin. apply Hm' in Hin as [?|?]; done. }
    rewrite Hout in He' by done. assert (e' = e) by congruence. subst e'.
    destruct Hcase as [?|Hon]; [done|].
    exfalso. apply Hnq. eapply lookupZ_elem_of; eauto.
  - intros p e' m' Hp He' Hm. cbn in Hp, He', Hm.
    destruct (items c) as [m|] eqn:Em; [|done]. cbn in Hm.
    assert (m' = delete (itemKey e0) m) by congruence. subst m'.
    assert (Hin : p ∈ expirations c) by (apply Hm'; auto).
    destruct (Hlk p Hin) as (e & He & Hl). cbn in He.
    destruct (Hr' p) as (_ & Hs & _). destruct (Hs e He) as (e'' & He'' & Hk & Ht).
    assert (e'' = e') by congruence. subst e''.
    destruct (Hst p e m Hin He eq_refl) as (it & Hit & Hexp).
    exists it. rewrite Hk, Ht. split; [|done].
    rewrite lookup_delete_ne; [done|]. intros E.
    destruct (Hlk p0 Hin0) as (e0' & He0' & Hl0). cbn in He0'.
    assert (e0' = e0) by congruence. subst e0'.
    rewrite E in Hl0. assert (p = p0) by congruence. subst p. done.
Qed.

Lemma due_pop c c2 now k p0 e0 :
  wfq (qstate_of c) ->
  mem c !! p0 = Some e0 ->
  (forall p, p ∈ expirations c <-> p = p0 \/ p ∈ expirations c2) ->
  reindexed (expirations c) (mem c) (mem c2) ->
  unixExpiryTime e0 <= now ->
  (due c now k <-> k = itemKey e0 \/ due c2 now k).
Proof.
  intros Hw He0 Hm Hr Hle. split.
  - intros (p & e & Hp & He & Hk & Ht).
    apply Hm in Hp as [->|Hp].
    + left. congruence.
    + right. destruct (Hr p) as (_ & Hs & _).
      destruct (Hs e He) as (e' & He' & Hk' & Ht').
      exists p, e'. split; [done|]. split; [done|]. split; congruence.
  - intros [->|(p & e' & Hp & He' & Hk & Ht)].
    + exists p0, e0. split; [apply Hm; auto|done].
    + assert (Hin : p ∈ expirations c) by (apply Hm; auto).
      apply list_elem_of_lookup in Hin as [i Hi].
      destruct (wfq_obj (qstate_of c) i p Hw Hi) as (e & He & _). cbn in He.
      destruct (Hr p) as (_ & Hs & _).
      destruct (Hs e He) as (e'' & He'' & Hk' & Ht').
      assert (e'' = e') by congruence. subst e''.
      exists p, e. split; [eapply list_elem_of_lookup_2; eauto|].
      split; [done|]. split; congruence.
Qed.

Lemma clean_stop c now p0 e0 :
  wf_cache c ->
  expirations c !! 0%nat = Some p0 -> mem c !! p0 = Some e0 ->
  now < unixExpiryTime e0 ->
  forall p, p ∈ expirations c -> now < key_of (mem c) p.
Proof.
  intros (Hw & Hh & _) H0 He0 Hlt p Hp.
  apply list_elem_of_lookup in Hp as [i Hi].
  pose proof (keys_lookup (qstate_of c) _ _ H0) as Hk0.
  pose proof (keys_lookup (qstate_of c) _ _ Hi) as Hki.
  assert (key_of (mem c) p0 <= key_of (mem c) p).
  { eapply (heapN_root_min _ _ Hh); eauto.
    - rewrite keys_length. done.
    - eapply lookup_lt_Some; eauto. }
  unfold key_of in H at 1. rewrite He0 in H. cbn in H. lia.
Qed.

Lemma clean_post_refl c now :
  wf_cache c ->
  (forall p, p ∈ expirations c -> now < key_of (mem c) p) ->
  clean_post c now c.
Proof.
  intros Hwf Hall.
  assert (Hnd : forall k, ~ due c now k).
  { intros k (p & e & Hp & He & _ & Ht). specialize (Hall p Hp).
    unfold key_of in Hall. rewrite He in Hall. cbn in Hall. lia. }
  split; [done|]. split; [done|]. split; [done|]. split.
  { intros p. split; [intros Hp; split; auto|tauto]. }
  split; [apply reindexed_refl|]. split; [done|]. split; [done|].
  split; [intros k Hk; destruct (Hnd k Hk)|]. done.
Qed.

Lemma clean_loop_spec now fuel : forall c,
  wf_cache c -> (length (expirations c) < fuel)%nat ->
  exists c', clean_loop fuel now c = (Ok tt, c') /\ clean_post c now c'.
Proof.
  induction fuel as [|fuel IH]; intros c Hwf Hf; [lia|].
  cbn [clean_loop].
  destruct (expirations c) as [|p0 rest] eqn:Eq.
  { exists c. split; [done|]. apply clean_post_refl; [done|].
    intros p Hp. rewrite Eq in Hp. by apply elem_of_nil in Hp. }
  assert (H0 : expirations c !! 0%nat = Some p0) by (now rewrite Eq).
  rewrite <- Eq.
  destruct (Z.ltb_spec 0 (Z.of_nat (length (expirations c)))) as [_|Hl];
    [|rewrite Eq in Hl; cbn in Hl; lia].
  change 0 with (Z.of_nat 0) at 1. rewrite lookupZ_nat, H0.
  pose proof Hwf as (Hw & Hh & Hlk & Htr & Hst).
  destruct (wfq_obj _ _ _ Hw H0) as (e0 & He0 & _). cbn in He0. rewrite He0.
  destruct (Z.gtb_spec (unixExpiryTime e0) now) as [Hgt|Hle].
  { exists c. split; [done|]. apply clean_post_refl; [done|].
    eapply clean_stop; eauto; lia. }
  destruct (Pop_spec (qstate_of c) p0 Hw H0 Hh)
    as (s' & Hrun & Hw' & Hl' & Hm' & Hnot & Hr' & (e1 & He1 & Hi1) & Hh').
  unfold onQueue. rewrite Hrun. cbn [with_qstate mem].
  rewrite He1.
  assert (Hk1 : itemKey e1 = itemKey e0).
  { destruct (Hr' p0) as (_ & Hs & _). destruct (Hs e0 He0) as (e' & He' & Hk & _).
    congruence. }
  rewrite Hk1.
  set (c2 := with_items _ _).
  assert (Hwf2 : wf_cache c2).
  { change (wf_cache (with_items (with_qstate c s') (delete (itemKey e0) <$> items c))).
    eapply clean_pop_wf; eauto. }
  destruct (IH c2 Hwf2) as (c' & Hrun' & Hpost).
  { cbn. cbn in Hl'. rewrite <- Eq in Hf. lia. }
  exists c'. split; [done|].
  destruct Hpost as (Hwf' & Hem & Hcn & Hmem & Hre & Hoff & Hmono & Hdue & Hnd & Hnil).
  assert (Hkey : forall p, key_of (mem c2) p = key_of (mem c) p).
  { intros p. cbn. eapply reindexed_key_of; eauto. }
  assert (Hdp : forall k, due c now k <-> k = itemKey e0 \/ due c2 now k).
  { intros k. eapply due_pop; eauto. }
  assert (Hl2 : forall k, lookupItem c2 k =
                          if decide (k = itemKey e0) then None else lookupItem c k).
  { intros k. apply (lookupItem_delete (with_qstate c s')). }
  split; [done|]. split; [done|]. split; [done|]. split.
  { intros p. rewrite Hmem, Hkey. cbn [c2 with_items with_qstate expirations].
    rewrite (Hm' p). split; [tauto|]. intros ([->|Hp] & Hlt); [|tauto].
    unfold key_of in Hlt. rewrite He0 in Hlt. cbn in Hlt. lia. }
  split.
  { eapply reindexed_trans; [exact Hr'|].
    eapply reindexed_weaken; [|exact Hre]. intros p Hp. apply Hm'. auto. }
  split.
  { intros p Hp Hnp. destruct (decide (p ∈ queue s')) as [Hin|Hnin].
    - apply Hoff; done.
    - apply Hm' in Hp as [->|?]; [|done].
      destruct (Hre p0) as (Hout & _ & _). rewrite Hout by done. eauto. }
  split.
  { intros k it Hk. apply Hmono in Hk. rewrite Hl2 in Hk.
    destruct (decide (k = itemKey e0)); done. }
  split.
  { intros k Hk. apply Hdp in Hk as [->|Hk]; [|auto].
    destruct (lookupItem c' (itemKey e0)) as [it|] eqn:E; [|done].
    apply Hmono in E. rewrite Hl2 in E. destruct (decide _); done. }
  split.
  { intros k Hk. rewrite Hnd, Hl2.
    - destruct (decide (k = itemKey e0)) as [->|]; [|done].
      exfalso. apply Hk, Hdp. auto.
    - intros Hd. apply Hk, Hdp. auto. }
  intros Hn. apply Hnil. cbn. now rewrite Hn.
Qed.

Lemma clean_spec now c :
  wf_cache c -> exists c', clean now c = (Ok tt, c') /\ clean_post c now c'.
Proof. intros Hwf. apply clean_loop_spec; [done|lia]. Qed.

Lemma clean_wf now c : wf_cache c -> wf_cache (snd (clean now c)).
Proof.
  intros Hwf. destruct (clean_spec now c Hwf) as (c' & -> & Hp). apply Hp.
Qed.

(** ** Every history keeps the invariant *)

Lemma step_wf c o : wf_cache c -> wf_cache (step c o).
Proof.
  intros Hwf. destruct o; cbn [step];
    auto using Set_wf, clean_wf, Shutdown_wf.
Qed.

Lemma fold_step_wf ops : forall c, wf_cache c -> wf_cache (fold_left step ops c).
Proof.
  induction ops as [|o ops IH]; intros c Hwf; [done|].
  cbn. apply IH. now apply step_wf.
Qed.

Lemma run_wf ops : wf_cache (run ops).
Proof. apply fold_step_wf, New_wf. Qed.

(** ** The queue driven directly keeps heap order *)

Lemma qexec_wf o s : wf_queue s -> wf_queue (qstep s o).
Proof.
  intros [Hw Hh]. unfold qstep. destruct o as [key expiry|i expiry|]; cbn [qexec].
  - (* Push of a fresh entry *)
    set (p := fresh (dom (objs s))).
    set (e0 := {| itemKey := key; unixExpiryTime := expiry; index := 0 |}).
    set (s0 := {| objs := <[p := e0]> (objs s); queue := queue s |}).
    assert (Hfresh : objs s !! p = None) by (apply not_elem_of_dom, is_fresh).
    assert (Hnot : p ∉ queue s).
    { intros Hin. apply list_elem_of_lookup in Hin as [i Hi].
      destruct (wfq_obj _ _ _ Hw Hi) as (e & He & _). congruence. }
    assert (Hsame : forall p', p' ∈ queue s -> objs s0 !! p' = objs s !! p').
    { intros p' Hin. cbn. rewrite lookup_insert_ne; [done|]. congruence. }
    assert (Hw0 : wfq s0).
    { split; [apply Hw|]. intros j p' Hj. cbn [s0 queue] in Hj.
      rewrite Hsame by (eapply list_elem_of_lookup_2; eauto).
      eapply wfq_obj; eauto. }
    assert (Hk0 : keys s0 = keys s).
    { unfold keys. cbn [s0 queue]. apply list_fmap_ext. intros j p' Hj. unfold key_of.
      now rewrite Hsame by (eapply list_elem_of_lookup_2; eauto). }
    destruct (Push_spec s0 p e0 Hw0 Hnot) as (s' & Hrun & Hw' & _ & _ & _ & Hh').
    { cbn. apply lookup_insert_eq. }
    assert (Hq : qalloc key expiry s = (Ok p, s0)) by done.
    rewrite (bind_ok _ _ _ _ _ Hq), Hrun. cbn [snd].
    split; [done|]. apply Hh'. now rewrite Hk0.
  - (* Fix after an in-place change *)
    unfold bind at 1, elemAt.
    destruct (lookupZ (queue s) i) as [p|] eqn:Hi; [|by split].
    apply lookupZ_Some in Hi as (n & -> & Hn).
    destruct (wfq_obj _ _ _ Hw Hn) as (e & He & _).
    destruct (refresh_on_queue s p n e expiry Hw Hh Hn He) as (s' & Hrun & Hp & Hh').
    rewrite Hrun. cbn [snd]. destruct Hp as (Hw' & Hl' & _).
    split; [done|]. cbn in Hl'. now rewrite Hl'.
  - (* PopMin *)
    destruct (queue s) as [|p0 rest] eqn:Eq.
    + assert (Hrun : heap.Pop s = (Panic "index out of range", s)).
      { unfold heap.Pop, expirationQueue.Len. unfold bind at 1. rewrite Eq.
        cbn [length]. unfold expirationQueue.Swap, bind, elemAt. now rewrite lookupZ_neg. }
      unfold bind. rewrite Hrun. cbn [snd]. split; [done|]. now rewrite Eq.
    + rewrite <- Eq in Hh.
      destruct (Pop_spec s p0 Hw) as (s' & Hrun & Hw' & _ & _ & _ & _ & _ & Hh');
        [now rewrite Eq|done|].
      rewrite (bind_ok _ _ _ _ _ Hrun). by split.
Qed.

Lemma qrun_wf ops : wf_queue (qrun ops).
Proof.
  unfold qrun. assert (H : wf_queue qempty).
  { split; [split; [constructor|intros i p Hi; done]|apply heapN_nil]. }
  revert H. generalize qempty. induction ops as [|o ops IH]; intros s Hs; [done|].
  cbn. apply IH. now apply qexec_wf.
Qed.

(** C5. After any sequence of Push, Fix and PopMin operations on the
    expiration queue, and after any history of cache operations, every
    non-root entry of the backing array has an expiry timestamp at least
    that of its parent, the entry at position [(j - 1) / 2]. *)
Theorem heap_order_after_ops :
  (forall ops : list qop, heap_ordered (keys (qrun ops))) /\
  (forall ops : list op, heap_ordered (keys (qstate_of (run ops)))).
Proof.
  split; intros ops.
  - destruct (qrun_wf ops) as [_ Hh].
    apply heapN_heap_ordered. now rewrite keys_length.
  - destruct (run_wf ops) as (_ & Hh & _).
    apply heapN_heap_ordered. now rewrite keys_length.
Qed.

(** ** Expiry on read *)

Lemma wrap64_in_range z : in_int64 z -> wrap64 z = z.
Proof.
  unfold in_int64, wrap64. intros H.
  rewrite Z.mod_small by lia. lia.
Qed.

(** Ten seconds convert exactly; of a second and a half the half is
    dropped, toward zero. *)
Example lifespanSeconds_10s : lifespanSeconds (10 * Second) = 10.
Proof. vm_compute. reflexivity. Qed.

Example lifespanSeconds_1500ms : lifespanSeconds (1500 * Millisecond) = 1.
Proof. vm_compute. reflexivity. Qed.

Example lifespanSeconds_negative : lifespanSeconds (- (1500 * Millisecond)) = -1.
Proof. vm_compute. reflexivity. Qed.

(** The sum is rounded to a [float64] before it is truncated: one
    nanosecond short of a second on top of 2^24 seconds rounds up. *)
Example lifespanSeconds_rounds_up :
  lifespanSeconds (16777216 * Second + 999999999) = 16777217.
Proof. vm_compute. reflexivity. Qed.

Lemma Get_found k now c it :
  lookupItem c k = Some it -> now < expiresAt it ->
  Get k now c = (stateObject it, None).
Proof.
  intros H Hlt. unfold Get. rewrite H.
  destruct (Z.leb_spec (expiresAt it) now); [lia|done].
Qed.

Lemma Get_expired k now c it :
  lookupItem c k = Some it -> expiresAt it <= now ->
  Get k now c = (None, Some "state item was found as expired"%string).
Proof.
  intros H Hle. unfold Get. rewrite H.
  destruct (Z.leb_spec (expiresAt it) now); [done|lia].
Qed.

Lemma Get_missing k now c :
  lookupItem c k = None ->
  Get k now c = (None, Some "state item not found"%string).
Proof. intros H. unfold Get. now rewrite H. Qed.

(** A queue entry that is due has an item that is expired. *)
Lemma due_item_expired c now k it :
  wf_cache c -> due c now k -> lookupItem c k = Some it -> expiresAt it <= now.
Proof.
  intros (_ & _ & _ & _ & Hst) (p & e & Hp & He & Hk & Ht) Hit.
  unfold lookupItem in Hit. destruct (items c) as [m|] eqn:Em; [|done].
  destruct (Hst p e m Hp He eq_refl) as (it' & Hit' & Hexp).
  rewrite Hk in Hit'. assert (it' = it) by congruence. subst. lia.
Qed.

Lemma clean_keeps_live c now k it :
  wf_cache c -> lookupItem c k = Some it -> now < expiresAt it ->
  lookupItem (snd (clean now c)) k = Some it.
Proof.
  intros Hwf Hit Hlt. destruct (clean_spec now c Hwf) as (c' & -> & Hpost).
  destruct Hpost as (_ & _ & _ & _ & _ & _ & _ & _ & Hnd & _). cbn [snd].
  rewrite Hnd; [done|]. intros Hd.
  pose proof (due_item_expired c now k it Hwf Hd Hit). lia.
Qed.

Lemma clean_only_deletes c now k it :
  wf_cache c -> lookupItem (snd (clean now c)) k = Some it -> lookupItem c k = Some it.
Proof.
  intros Hwf. destruct (clean_spec now c Hwf) as (c' & -> & Hpost).
  destruct Hpost as (_ & _ & _ & _ & _ & _ & Hmono & _). apply Hmono.
Qed.

Lemma sweeps_spec times : forall c k,
  wf_cache c ->
  wf_cache (sweeps times c) /\
  (forall it, lookupItem (sweeps times c) k = Some it -> lookupItem c k = Some it) /\
  (forall it, lookupItem c k = Some it -> Forall (fun s => s < expiresAt it) times ->
              lookupItem (sweeps times c) k = Some it).
Proof.
  induction times as [|s times IH]; intros c k Hwf; [done|].
  cbn [sweeps fold_left].
  destruct (IH (snd (clean s c)) k (clean_wf s c Hwf)) as (Hwf' & Hback & Hkeep).
  split; [done|]. split.
  - intros it Hit. apply clean_only_deletes with (now := s); auto.
  - intros it Hit Hall. apply Forall_cons in Hall as [Hs Hall].
    apply Hkeep; [|done]. now apply clean_keeps_live.
Qed.

Lemma Set_stores st lifespan now c :
  wf_cache c -> is_Some (items c) ->
  fst (Set_ (Some st) lifespan now c) = Ok None /\
  lookupItem (snd (Set_ (Some st) lifespan now c)) (Id st) = Some (newItem st lifespan now).
Proof.
  intros Hwf [m Hm]. destruct (Set_spec st lifespan now c Hwf) as (c1 & p & _ & -> & _).
  rewrite Hm. cbn [fst snd]. split; [done|].
  rewrite lookupItem_with_items. apply lookup_insert_eq.
Qed.

(** C1, as the code has it.  On a cache that was not shut down, after
    [Set(v, L)] at time [t] the entry expires at
    [t + int64(L.Seconds())], where [L.Seconds()] is the [float64] that Go
    computes for [L] ([lifespanSeconds] is its conversion to [int64]) and
    the sum is an [int64]: [Get] returns [v] at every
    query time before that instant and reports absence (nil state, non-nil
    error) at every query time from that instant on, whatever sweeps ran in
    between (at times up to the query time). *)
Theorem Set_then_Get_expiry (ops : list op) (st : MyState) (lifespan t q : Z)
    (times : list Z) :
  is_Some (items (run ops)) ->
  let expiry := wrap64 (t + lifespanSeconds lifespan) in
  let c := sweeps times (snd (Set_ (Some st) lifespan t (run ops))) in
  fst (Set_ (Some st) lifespan t (run ops)) = Ok None /\
  (q < expiry -> Forall (fun s => s <= q) times ->
   Get (Id st) q c = (Some st, None)) /\
  (expiry <= q ->
   fst (Get (Id st) q c) = None /\ is_Some (snd (Get (Id st) q c))).
Proof.
  intros Hits expiry c.
  destruct (Set_stores st lifespan t (run ops) (run_wf ops) Hits) as [Hok Hit].
  destruct (sweeps_spec times (snd (Set_ (Some st) lifespan t (run ops))) (Id st))
    as (_ & Hback & Hkeep); [apply Set_wf, run_wf|].
  split; [done|]. split.
  - intros Hlt Hall.
    rewrite (Get_found _ _ _ (newItem st lifespan t)); [done| |done].
    apply Hkeep; [done|]. eapply Forall_impl; [exact Hall|].
    intros s Hs. change (s < expiry). cbn beta in Hs. lia.
  - intros Hle.
    assert (Hc : forall it, lookupItem c (Id st) = Some it -> it = newItem st lifespan t).
    { intros it E. apply Hback in E. congruence. }
    clear Hback Hkeep.
    destruct (lookupItem c (Id st)) as [it|] eqn:E.
    + rewrite (Hc it eq_refl) in E.
      rewrite (Get_expired _ _ _ _ E); [cbn; eauto|done].
    + rewrite Get_missing by done. cbn. eauto.
Qed.

Lemma Set_then_Get_expiry_witness :
  is_Some (items (run [])) /\
  Get "a" 9 (sweeps [5] (snd (Set_ (Some stateA) (10 * Second) 0 (run []))))
  = (Some stateA, None).
Proof.
  assert (H : is_Some (items (run []))) by (vm_compute; eauto).
  split; [exact H|].
  refine (proj1 (proj2 (Set_then_Get_expiry [] stateA (10 * Second) 0 9 [5] H)) _ _).
  - vm_compute. reflexivity.
  - repeat constructor; lia.
Defined.

(** C1 as stated fails: with a lifespan of 1.5 s set at time 0, the query
    at time 1 lies in [[t, t + L)] and yet finds the entry expired. *)
Lemma expiry_window_counterexample :
  ~ (forall (st : MyState) (lifespan t q : Z),
       t * Second <= q * Second < t * Second + lifespan ->
       Get (Id st) q (snd (Set_ (Some st) lifespan t NewMyStateCache))
       = (Some st, None)).
Proof.
  intros H. specialize (H stateA (1500 * Millisecond) 0 1).
  assert (Hr : 0 * Second <= 1 * Second < 0 * Second + 1500 * Millisecond)
    by (vm_compute; split; [discriminate|reflexivity]).
  specialize (H Hr). vm_compute in H. discriminate.
Qed.

(** ** Re-insertion *)

Lemma filter_unique {A} (P : A -> Prop) `{forall x, Decision (P x)} (l : list A) p :
  NoDup l -> p ∈ l -> P p -> (forall x, x ∈ l -> P x -> x = p) ->
  filter P l = [p].
Proof.
  intros Hnd Hp HPp Huniq. induction l as [|a l IH]; [by apply elem_of_nil in Hp|].
  apply NoDup_cons in Hnd as [Ha Hnd].
  assert (Hnone : forall l', (forall x, x ∈ l' -> P x -> x = p) -> p ∉ l' ->
                             filter P l' = []).
  { clear. intros l' Hu Hn. induction l' as [|b l' IH']; [done|].
    rewrite filter_cons. destruct (decide (P b)) as [Hb|Hb].
    - exfalso. apply Hn. rewrite (Hu b); [left|left|done].
    - apply IH'.
      + intros x Hx. apply Hu. by right.
      + intros Hx. apply Hn. by right. }
  rewrite filter_cons. apply elem_of_cons in Hp as [<-|Hp].
  - destruct (decide (P p)); [|done]. f_equal. apply Hnone; [|done].
    intros x Hx. apply Huniq. by right.
  - destruct (decide (P a)) as [Hpa|Hpa].
    + exfalso. apply Ha. rewrite (Huniq a); [done|left|done].
    + apply IH; [done|done|]. intros x Hx. apply Huniq. by right.
Qed.

Lemma filter_none {A} (P : A -> Prop) `{forall x, Decision (P x)} (l : list A) :
  (forall x, x ∈ l -> ~ P x) -> filter P l = [].
Proof.
  induction l as [|a l IH]; intros Hn; [done|].
  rewrite filter_cons. destruct (decide (P a)) as [Ha|Ha].
  - exfalso. apply (Hn a); [left|done].
  - apply IH. intros x Hx. apply Hn. by right.
Qed.

(** The queue entries of a key are the entry [expiryMap] holds for it, if
    that entry is on the queue, and none otherwise. *)
Lemma queueEntriesFor_on c k p :
  wf_cache c -> expiryMap c !! k = Some p -> p ∈ expirations c ->
  queueEntriesFor c k = [p].
Proof.
  intros (Hw & _ & Hlk & Htr & _) Hk Hp. unfold queueEntriesFor.
  apply filter_unique; [apply Hw|done| |].
  - destruct (Htr k p Hk) as (e & He & Hke & _). cbn in He. rewrite He. cbn. congruence.
  - intros x Hx Hkx. destruct (Hlk x Hx) as (e & He & Hl). cbn in He.
    rewrite He in Hkx. cbn in Hkx. injection Hkx as Hkx. rewrite Hkx in Hl. congruence.
Qed.

Lemma queueEntriesFor_off c k p :
  wf_cache c -> expiryMap c !! k = Some p -> p ∉ expirations c ->
  queueEntriesFor c k = [].
Proof.
  intros (Hw & _ & Hlk & Htr & _) Hk Hp. unfold queueEntriesFor.
  apply filter_none. intros x Hx Hkx. destruct (Hlk x Hx) as (e & He & Hl). cbn in He.
  rewrite He in Hkx. cbn in Hkx. injection Hkx as Hkx. rewrite Hkx in Hl.
  apply Hp. congruence.
Qed.

(** [Set] on a cache that was not shut down, in full. *)
Lemma Set_result st lifespan now c :
  wf_cache c -> is_Some (items c) ->
  exists c1 p m,
    items c = Some m /\
    branch_post c c1 (Id st) (wrap64 (now + lifespanSeconds lifespan)) p /\
    Set_ (Some st) lifespan now c
    = (Ok None, with_items c1 (Some (<[Id st := newItem st lifespan now]> m))) /\
    wf_cache (with_items c1 (Some (<[Id st := newItem st lifespan now]> m))).
Proof.
  intros Hwf [m Hm]. destruct (Set_spec st lifespan now c Hwf) as (c1 & p & Hpost & Heq & Hwf').
  rewrite Hm in Heq. rewrite Heq in Hwf'. exists c1, p, m. done.
Qed.

(** Re-insertion where the index is intact.  On a cache that was not shut
    down, for a key whose expiry entry was not taken off the queue by a
    sweep, [Set(v1, L1)] followed by [Set(v2, L2)] for the same key leaves
    one item for the key, holding [v2] with the expiry of the second call,
    and exactly one queue entry for the key, with that same expiry. *)
Lemma Set_twice_single_entry (ops : list op) (st1 st2 : MyState)
    (L1 L2 t1 t2 : Z) :
  is_Some (items (run ops)) ->
  ~ swept (run ops) (Id st1) ->
  Id st2 = Id st1 ->
  let r1 := Set_ (Some st1) L1 t1 (run ops) in
  let r2 := Set_ (Some st2) L2 t2 (snd r1) in
  fst r1 = Ok None /\ fst r2 = Ok None /\
  lookupItem (snd r2) (Id st1)
  = Some {| stateObject := Some st2; cachedAt := t2;
            expiresAt := wrap64 (t2 + lifespanSeconds L2) |} /\
  exists p e,
    queueEntriesFor (snd r2) (Id st1) = [p] /\
    expiryMap (snd r2) !! Id st1 = Some p /\
    mem (snd r2) !! p = Some e /\
    itemKey e = Id st1 /\
    unixExpiryTime e = wrap64 (t2 + lifespanSeconds L2).
Proof.
  intros Hits Hns Hid r1 r2.
  destruct (Set_result st1 L1 t1 (run ops) (run_wf ops) Hits)
    as (c1 & p1 & m1 & Hm1 & Hpost1 & Heq1 & Hwf1).
  subst r2 r1. rewrite Heq1. cbn [fst snd].
  set (c1' := with_items c1 _) in *.
  pose proof Hpost1 as (_ & _ & Hw1 & _ & Hem1 & (ep1 & Hep1 & _) & _ & _ & _ & _ & _
                        & Hon1 & _).
  assert (Hp1 : p1 ∈ expirations c1') by (apply Hon1, Hns).
  assert (Hk1 : expiryMap c1' !! Id st2 = Some p1).
  { cbn. rewrite Hem1, Hid. apply lookup_insert_eq. }
  assert (Hns1 : ~ swept c1' (Id st2)).
  { intros (p & e & Hp & He & Hi). assert (p = p1) by congruence. subst p.
    destruct (wfq_on_queue (qstate_of c1') p1 e) as [Hge _]; [apply Hwf1|done|done|lia]. }
  destruct (Set_result st2 L2 t2 c1' Hwf1 ltac:(cbn; eauto))
    as (c2 & p2 & m2 & Hm2 & Hpost2 & Heq2 & Hwf2).
  rewrite Heq2. cbn [fst snd].
  pose proof Hpost2 as (_ & _ & _ & _ & Hem2 & (ep2 & Hep2 & Hpk2 & Hpt2) & _ & _ & _ & _
                        & Hold2 & Hon2 & _).
  assert (p2 = p1).
  { destruct Hold2 as [(Hn & _)|Hs]; congruence. }
  subst p2.
  split; [done|]. split; [done|]. split.
  { rewrite lookupItem_with_items, <- Hid. apply lookup_insert_eq. }
  exists p1, ep2. rewrite <- Hid.
  assert (Hk2 : expiryMap c2 !! Id st2 = Some p1).
  { rewrite Hem2. apply lookup_insert_eq. }
  split; [|done].
  apply queueEntriesFor_on; [done|done|]. cbn. apply Hon2, Hns1.
Qed.

Example Set_twice_fresh_key :
  exists p,
    queueEntriesFor
      (snd (Set_ (Some stateA) Second 7
              (snd (Set_ (Some stateA) (5 * Second) 7 (run []))))) "a" = [p].
Proof.
  assert (H1 : is_Some (items (run []))) by (vm_compute; eauto).
  assert (H2 : ~ swept (run []) (Id stateA)).
  { intros (p & e & Hp & _). vm_compute in Hp. discriminate. }
  destruct (Set_twice_single_entry [] stateA stateA (5 * Second) Second 7 7 H1 H2 eq_refl)
    as (_ & _ & _ & p & e & Hq & _).
  exists p. exact Hq.
Qed.

(** C2 fails on the code for a key that a sweep has removed: after [Set]
    of "a" and the sweep that removes it, [Set(v1, 5 s)] followed by
    [Set(v2, 1 s)] both return nil and leave the item of the second call,
    and the queue holds no entry for the key. *)
Theorem Set_twice_after_sweep_no_queue_entry :
  let c := run [OpSet (Some stateA) (10 * Second) 0; OpClean 10] in
  let r1 := Set_ (Some stateA) (5 * Second) 20 c in
  let r2 := Set_ (Some stateA2) Second 20 (snd r1) in
  fst r1 = Ok None /\ fst r2 = Ok None /\
  lookupItem (snd r2) "a" = Some (newItem stateA2 Second 20) /\
  queueEntriesFor (snd r2) "a" = [] /\
  expirations (snd r2) = [].
Proof. vm_compute. repeat split; reflexivity. Qed.

(** ** The sweep *)

Lemma clean_noop now c :
  (forall p e, expirations c !! 0%nat = Some p -> mem c !! p = Some e ->
               now < unixExpiryTime e) ->
  wfq (qstate_of c) ->
  clean now c = (Ok tt, c).
Proof.
  intros Hmin Hw. unfold clean. cbn [clean_loop].
  destruct (expirations c) as [|p0 rest] eqn:Eq; [done|].
  assert (H0 : expirations c !! 0%nat = Some p0) by (now rewrite Eq).
  destruct (wfq_obj _ _ _ Hw H0) as (e0 & He0 & _). cbn in He0.
  rewrite <- Eq.
  destruct (Z.ltb_spec 0 (Z.of_nat (length (expirations c)))) as [_|Hl];
    [|rewrite Eq in Hl; cbn in Hl; lia].
  change 0 with (Z.of_nat 0) at 1. rewrite lookupZ_nat, H0, He0.
  specialize (Hmin p0 e0 eq_refl He0).
  destruct (Z.gtb_spec (unixExpiryTime e0) now); [done|lia].
Qed.

(** What a sweep does in terms of the queue.  A sweep at [now] over any
    cache a history can reach completes and
    - leaves on the queue exactly the entries whose expiry is after [now];
    - deletes no item whose expiry is after [now];
    - deletes the item of every key with a queue entry due at [now], and
      leaves every other item as it was, expired or not;
    - stops with the queue empty or its first entry in the future;
    - is a no-op when repeated, at [now] or at any time the first queue
      entry is still in the future. *)
Lemma clean_removes_due_entries (ops : list op) (now : Z) :
  exists c',
    clean now (run ops) = (Ok tt, c') /\
    (forall p, p ∈ expirations c' <->
               p ∈ expirations (run ops) /\ now < key_of (mem (run ops)) p) /\
    (forall k it, lookupItem (run ops) k = Some it -> now < expiresAt it ->
                  lookupItem c' k = Some it) /\
    (forall k, due (run ops) now k -> lookupItem c' k = None) /\
    (forall k, ~ due (run ops) now k -> lookupItem c' k = lookupItem (run ops) k) /\
    (forall p e, expirations c' !! 0%nat = Some p -> mem c' !! p = Some e ->
                 now < unixExpiryTime e) /\
    clean now c' = (Ok tt, c') /\
    (forall now',
       (forall p e, expirations c' !! 0%nat = Some p -> mem c' !! p = Some e ->
                    now' < unixExpiryTime e) ->
       clean now' c' = (Ok tt, c')).
Proof.
  pose proof (run_wf ops) as Hwf.
  destruct (clean_spec now (run ops) Hwf) as (c' & Hrun & Hpost).
  exists c'. split; [done|].
  destruct Hpost as (Hwf' & _ & _ & Hmem & Hre & _ & _ & Hdue & Hnd & _).
  assert (Hmin : forall p e, expirations c' !! 0%nat = Some p -> mem c' !! p = Some e ->
                             now < unixExpiryTime e).
  { intros p e Hp He. assert (Hin : p ∈ expirations c') by (eapply list_elem_of_lookup_2; eauto).
    apply Hmem in Hin as [_ Hlt]. rewrite <- (reindexed_key_of _ _ _ p Hre) in Hlt.
    unfold key_of in Hlt. rewrite He in Hlt. exact Hlt. }
  split; [done|]. split.
  { intros k it Hit Hlt. rewrite Hnd; [done|]. intros Hd.
    pose proof (due_item_expired _ _ _ _ Hwf Hd Hit). lia. }
  split; [done|]. split; [done|]. split; [done|]. split.
  - apply clean_noop; [done|apply Hwf'].
  - intros now' Hmin'. apply clean_noop; [done|apply Hwf'].
Qed.

Lemma clean_removes_due_entries_witness :
  exists c',
    clean 10 (run [OpSet (Some stateA) (10 * Second) 0;
                   OpSet (Some stateB) (20 * Second) 0]) = (Ok tt, c') /\
    lookupItem c' "b" = Some (newItem stateB (20 * Second) 0).
Proof.
  destruct (clean_removes_due_entries
              [OpSet (Some stateA) (10 * Second) 0; OpSet (Some stateB) (20 * Second) 0] 10)
    as (c' & Hrun & _ & Hlive & _).
  exists c'. split; [exact Hrun|].
  apply Hlive; vm_compute; reflexivity.
Defined.

(** C4 fails on the code: a sweep removes the items of the queue entries
    that are due, not the items that have expired, and an item can be
    stored without a queue entry.  After [Set] of "a" for 10 s at time 0, a
    sweep at time 10 and [Set] of "a" for 10 s at time 20, the item of "a"
    expires at 30 and the queue is empty: a sweep at any time, also long
    after 30, returns at once and leaves the cache as it is, the expired
    item included. *)
Theorem clean_leaves_expired_item :
  let c := run [OpSet (Some stateA) (10 * Second) 0; OpClean 10;
                OpSet (Some stateA) (10 * Second) 20] in
  lookupItem c "a" = Some (newItem stateA (10 * Second) 20) /\
  expiresAt (newItem stateA (10 * Second) 20) = 30 /\
  expirations c = [] /\
  (forall now, clean now c = (Ok tt, c)) /\
  lookupItem (snd (clean 1000 c)) "a" = Some (newItem stateA (10 * Second) 20).
Proof.
  cbv zeta.
  assert (Hall : forall now,
            clean now (run [OpSet (Some stateA) (10 * Second) 0; OpClean 10;
                            OpSet (Some stateA) (10 * Second) 20])
            = (Ok tt, run [OpSet (Some stateA) (10 * Second) 0; OpClean 10;
                           OpSet (Some stateA) (10 * Second) 20])).
  { intros now. apply clean_noop; [|apply run_wf].
    intros p e Hp. vm_compute in Hp. discriminate. }
  split; [vm_compute; reflexivity|]. split; [vm_compute; reflexivity|].
  split; [vm_compute; reflexivity|]. split; [exact Hall|].
  rewrite Hall. vm_compute. reflexivity.
Qed.

(** ** The index is not swept *)

(** C3 fails on the code: the sweep pops the queue entry and deletes the
    item, and leaves the key in [expiryMap].  After [Set] of "a" for 10 s
    at time 0 and a sweep at time 10 the item store is empty while the
    index still holds "a", pointing at an entry with index [-1]. *)
Theorem sweep_leaves_key_in_expiryMap :
  let c := run [OpSet (Some stateA) (10 * Second) 0; OpClean 10] in
  (map_to_list <$> items c) = Some [] /\
  expirations c = [] /\
  map_to_list (expiryMap c) = [("a"%string, 1%positive)] /\
  mem c !! 1%positive = Some {| itemKey := "a"; unixExpiryTime := 10; index := -1 |}.
Proof. vm_compute. repeat split; reflexivity. Qed.

(** C6 fails on the code in its last part: re-[Set] of a swept key returns
    nil and does not panic, and the item is stored, and no entry for the key
    goes back on the queue, so that no later sweep removes the item. *)
Theorem Set_after_sweep_not_queued :
  let c := run [OpSet (Some stateA) (10 * Second) 0; OpClean 10] in
  let r := Set_ (Some stateA) (10 * Second) 20 c in
  fst r = Ok None /\
  lookupItem (snd r) "a" = Some (newItem stateA (10 * Second) 20) /\
  expirations (snd r) = [] /\
  queueEntriesFor (snd r) "a" = [] /\
  lookupItem (snd (clean 1000 (snd r))) "a" = Some (newItem stateA (10 * Second) 20).
Proof. vm_compute. repeat split; reflexivity. Qed.

(** The same for every swept key of every reachable cache. *)
Lemma Set_swept_key_stays_off_queue (ops : list op) (st : MyState) (lifespan now : Z) :
  is_Some (items (run ops)) -> swept (run ops) (Id st) ->
  let r := Set_ (Some st) lifespan now (run ops) in
  fst r = Ok None /\
  lookupItem (snd r) (Id st) = Some (newItem st lifespan now) /\
  expirations (snd r) = expirations (run ops) /\
  queueEntriesFor (snd r) (Id st) = [].
Proof.
  intros Hits Hsw r.
  destruct (Set_result st lifespan now (run ops) (run_wf ops) Hits)
    as (c1 & p & m & Hm & Hpost & Heq & Hwf).
  subst r. rewrite Heq. cbn [fst snd].
  destruct Hpost as (_ & _ & _ & _ & Hem & _ & _ & _ & _ & _ & _ & _ & Hoff).
  destruct (Hoff Hsw) as [Hq Hnot].
  split; [done|]. split; [rewrite lookupItem_with_items; apply lookup_insert_eq|].
  split; [done|].
  apply (queueEntriesFor_off _ _ p); [done| |done].
  cbn. rewrite Hem. apply lookup_insert_eq.
Qed.

(** ** Errors of [Set] and [Get] *)

(** C7. [Set] returns an error exactly when the state is nil, and then the
    cache is unchanged.  With a non-nil state no error is returned whatever
    the lifespan, zero and negative ones included; on a cache that was not
    shut down the call returns nil. *)
Theorem Set_error_iff_nil (state : option MyState) (lifespan now : Z)
    (c : MyStateCache) :
  ((exists msg, fst (Set_ state lifespan now c) = Ok (Some msg)) <-> state = None) /\
  (state = None -> snd (Set_ state lifespan now c) = c) /\
  (forall ops, c = run ops -> is_Some (items c) -> state <> None ->
               fst (Set_ state lifespan now c) = Ok None).
Proof.
  split; [|split].
  - split.
    + intros [msg Hmsg]. destruct state as [st|]; [|done]. exfalso.
      unfold Set_ in Hmsg.
      destruct (trackExpiry _ _ c) as [r c1]. destruct r as [u|m|]; cbn in Hmsg.
      * destruct (items c1); cbn in Hmsg; discriminate.
      * discriminate.
      * discriminate.
    + intros ->. cbn. eauto.
  - intros ->. reflexivity.
  - intros ops -> Hits Hst. destruct state as [st|]; [|done].
    apply Set_stores; [apply run_wf|done].
Qed.

Lemma Set_error_iff_nil_witness :
  (is_Some (items (run [])) /\ Some stateA <> None) /\
  fst (Set_ (Some stateA) (- (5 * Second)) 100 (run [])) = Ok None.
Proof.
  assert (H1 : is_Some (items (run []))) by (vm_compute; eauto).
  assert (H2 : Some stateA <> None) by discriminate.
  split; [split; [exact H1|exact H2]|].
  exact (proj2 (proj2 (Set_error_iff_nil (Some stateA) (- (5 * Second)) 100 (run [])))
           [] eq_refl H1 H2).
Defined.

(** C8, as the code has it.  A key that has no item and a key whose item
    is stored but expired both make [Get] return a nil state and a non-nil
    error; the two errors carry different messages. *)
Theorem Get_absent_or_expired (c : MyStateCache) (k : string) (now : Z) :
  (lookupItem c k = None ->
   Get k now c = (None, Some "state item not found"%string)) /\
  (forall it, lookupItem c k = Some it -> expiresAt it <= now ->
   Get k now c = (None, Some "state item was found as expired"%string)).
Proof.
  split.
  - apply Get_missing.
  - intros it. apply Get_expired.
Qed.

Lemma Get_absent_or_expired_witness :
  lookupItem NewMyStateCache "a" = None /\
  Get "a" 5 NewMyStateCache = (None, Some "state item not found"%string).
Proof.
  assert (H : lookupItem NewMyStateCache "a" = None) by (vm_compute; reflexivity).
  split; [exact H|].
  exact (proj1 (Get_absent_or_expired NewMyStateCache "a" 5) H).
Defined.

(** C8 as stated fails: the result of [Get] for a key that was never
    cached differs from its result for a key whose item is stored and
    expired. *)
Lemma Get_missing_vs_expired_differ :
  let c := run [OpSet (Some stateA) Second 0] in
  lookupItem NewMyStateCache "a" = None /\
  (exists it, lookupItem c "a" = Some it /\ expiresAt it <= 5) /\
  Get "a" 5 NewMyStateCache <> Get "a" 5 c.
Proof.
  split; [vm_compute; reflexivity|]. split.
  - eexists. split; [vm_compute; reflexivity|]. vm_compute. discriminate.
  - vm_compute. discriminate.
Qed.

(** ** Shutdown *)

(** C9. A second [Shutdown] changes nothing: it finds the item store nil,
    the queue and the index empty and the context cancelled, and leaves the
    state the first call produced. *)
Theorem Shutdown_idempotent (c : MyStateCache) :
  Shutdown (Shutdown c) = Shutdown c /\
  items (Shutdown c) = None /\ expirations (Shutdown c) = [] /\
  expiryMap (Shutdown c) = ∅ /\ cancelled (Shutdown c) = true.
Proof. repeat split. Qed.

(** C10. After [Shutdown], [Get] of any key reports that the item was not
    found, and [Set] of a non-nil state panics on the write to the nil item
    store instead of returning. *)
Theorem after_Shutdown_Get_Set (c : MyStateCache) :
  (forall k now, Get k now (Shutdown c) = (None, Some "state item not found"%string)) /\
  (forall st lifespan now,
     fst (Set_ (Some st) lifespan now (Shutdown c))
     = Panic "assignment to entry in nil map"%string).
Proof.
  split.
  - intros k now. reflexivity.
  - intros st lifespan now.
    destruct (Set_spec st lifespan now (Shutdown c) (Shutdown_wf c))
      as (c1 & p & _ & -> & _).
    reflexivity.
Qed.

(** * Further properties of the heap-backed cache *)

(** ** [Set] and the other keys *)

Lemma trackExpiry_items k t c : items (snd (trackExpiry k t c)) = items c.
Proof.
  unfold trackExpiry. destruct (expiryMap c !! k) as [p|].
  - unfold onQueue. destruct (refresh p t (qstate_of c)) as [r s]. reflexivity.
  - unfold newExpiry, onQueue.
    destruct (heap.Push _ _) as [r s]. reflexivity.
Qed.

Lemma Set_lookup_other state lifespan now c k :
  (forall st, state = Some st -> Id st <> k) ->
  lookupItem (snd (Set_ state lifespan now c)) k = lookupItem c k.
Proof.
  intros Hne. destruct state as [st|]; [|reflexivity].
  specialize (Hne st eq_refl). unfold Set_.
  pose proof (trackExpiry_items (Id st) (wrap64 (now + lifespanSeconds lifespan)) c) as Hit.
  destruct (trackExpiry _ _ c) as [r c1]. cbn [snd] in Hit.
  unfold lookupItem. destruct r as [u|msg|]; cbn [snd]; try (now rewrite Hit).
  destruct (items c1) as [m|] eqn:Em; cbn [snd].
  - rewrite <- Hit. cbn. now rewrite lookup_insert_ne.
  - now rewrite <- Hit, Em.
Qed.

(** X1. [Set] of one key leaves every other key as it was: for a key that
    is not the [Id] of the state, [Get] returns after the [Set] what it
    returned before, at every time and on every cache (also when the
    [Set] returns an error or panics). *)
Theorem Set_leaves_other_keys (st : MyState) (lifespan now : Z) (c : MyStateCache)
    (k : string) (q : Z) :
  Id st <> k ->
  Get k q (snd (Set_ (Some st) lifespan now c)) = Get k q c.
Proof.
  intros Hne. unfold Get. rewrite Set_lookup_other; [done|].
  intros st' E. congruence.
Qed.

Lemma Set_leaves_other_keys_witness :
  Id stateB <> "a"%string /\
  Get "a" 3 (snd (Set_ (Some stateB) Second 2
                    (run [OpSet (Some stateA) (10 * Second) 0])))
  = Get "a" 3 (run [OpSet (Some stateA) (10 * Second) 0]).
Proof.
  assert (H : Id stateB <> "a"%string) by discriminate.
  split; [exact H|].
  exact (Set_leaves_other_keys stateB Second 2
           (run [OpSet (Some stateA) (10 * Second) 0]) "a" 3 H).
Defined.

(** ** Sweeps are not observable through [Get] *)

(** X2. A sweep never changes the state a later [Get] returns: on every
    reachable cache, [Get] at a time not before the sweep returns the same
    state pointer whether or not the sweep ran (only the text of the error
    can differ, "not found" for a swept item and "expired" for one still
    stored). *)
Theorem sweep_invisible_to_Get (ops : list op) (k : string) (s q : Z) :
  s <= q ->
  fst (Get k q (snd (clean s (run ops)))) = fst (Get k q (run ops)).
Proof.
  intros Hsq. pose proof (run_wf ops) as Hwf.
  destruct (clean_spec s (run ops) Hwf) as (c' & -> & Hpost). cbn [snd].
  destruct Hpost as (_ & _ & _ & _ & _ & _ & _ & Hdue & Hnd & _).
  destruct (due_dec (run ops) s k) as [Hd|Hd].
  - rewrite (Get_missing k q c' (Hdue k Hd)). cbn [fst].
    destruct (lookupItem (run ops) k) as [it|] eqn:E.
    + pose proof (due_item_expired _ _ _ _ Hwf Hd E).
      rewrite (Get_expired k q _ it E); [done|lia].
    + now rewrite Get_missing.
  - unfold Get. now rewrite (Hnd k Hd).
Qed.

Lemma sweep_invisible_to_Get_witness :
  10 <= 12 /\
  fst (Get "a" 12 (snd (clean 10 (run [OpSet (Some stateA) (10 * Second) 0]))))
  = fst (Get "a" 12 (run [OpSet (Some stateA) (10 * Second) 0])).
Proof.
  assert (H : 10 <= 12) by lia.
  split; [exact H|].
  exact (sweep_invisible_to_Get [OpSet (Some stateA) (10 * Second) 0] "a" 10 12 H).
Defined.

(** ** What the cache keeps of its three structures *)

Lemma clean_loop_items_some now fuel : forall c,
  is_Some (items c) -> is_Some (items (snd (clean_loop fuel now c))).
Proof.
  induction fuel as [|fuel IH]; intros c Hs; [done|].
  cbn [clean_loop].
  destruct (0 <? Z.of_nat (length (expirations c))); [|done].
  destruct (lookupZ (expirations c) 0) as [p|]; [|done].
  destruct (mem c !! p) as [e|]; [|done].
  destruct (unixExpiryTime e >? now); [done|].
  unfold onQueue. destruct (heap.Pop (qstate_of c)) as [r s].
  destruct r as [p'|msg|]; try done.
  cbn [with_qstate mem]. destruct (objs s !! p) as [e1|]; [|done].
  apply IH. cbn. destruct Hs as [m ->]. cbn. eauto.
Qed.

Lemma step_items_some c o :
  wf_cache c -> is_Some (items c) -> isShutdown o = false ->
  is_Some (items (step c o)).
Proof.
  intros Hwf Hs Ho. destruct o as [state lifespan now|k now|now|]; cbn [step]; try done.
  - destruct state as [st|]; [|done].
    destruct (Set_result st lifespan now c Hwf Hs) as (c1 & p & m & _ & _ & -> & _).
    cbn. eauto.
  - now apply clean_loop_items_some.
Qed.

Lemma step_expiryMap c o k :
  wf_cache c -> is_Some (items c) -> isShutdown o = false ->
  is_Some (expiryMap (step c o) !! k) <->
  is_Some (expiryMap c !! k) \/ k ∈ setIds [o].
Proof.
  intros Hwf Hs Ho. destruct o as [state lifespan now|k' now|now|]; cbn [step]; try done.
  - destruct state as [st|].
    + destruct (Set_result st lifespan now c Hwf Hs) as (c1 & p & m & _ & Hpost & -> & _).
      destruct Hpost as (_ & _ & _ & _ & Hem & _). cbn [snd with_items expiryMap].
      rewrite Hem. cbn. rewrite list_elem_of_singleton.
      destruct (decide (k = Id st)) as [->|Hne].
      * rewrite lookup_insert_eq. split; eauto.
      * rewrite lookup_insert_ne by done. split; [auto|]. intros [?|?]; done.
    + cbn. split; [auto|]. intros [?|H]; [done|]. by apply elem_of_nil in H.
  - cbn. split; [auto|]. intros [?|H]; [done|]. by apply elem_of_nil in H.
  - destruct (clean_spec now c Hwf) as (c' & -> & Hpost).
    destruct Hpost as (_ & Hem & _). cbn [snd]. rewrite Hem. cbn.
    split; [auto|]. intros [?|H]; [done|]. by apply elem_of_nil in H.
Qed.

Lemma fold_step_expiryMap ops : forall c k,
  wf_cache c -> is_Some (items c) -> noShutdown ops ->
  is_Some (items (fold_left step ops c)) /\
  (is_Some (expiryMap (fold_left step ops c) !! k) <->
   is_Some (expiryMap c !! k) \/ k ∈ setIds ops).
Proof.
  induction ops as [|o ops IH]; intros c k Hwf Hs Hno.
  { cbn. split; [done|]. split; [auto|]. intros [?|H]; [done|]. by apply elem_of_nil in H. }
  apply Forall_cons in Hno as [Ho Hno]. cbn [fold_left].
  destruct (IH (step c o) k (step_wf c o Hwf) (step_items_some c o Hwf Hs Ho) Hno)
    as [Hs' Hiff].
  split; [done|]. rewrite Hiff, (step_expiryMap c o k Hwf Hs Ho).
  change (o :: ops) with ([o] ++ ops). unfold setIds. rewrite omap_app, elem_of_app.
  tauto.
Qed.

(** X3. Without [Shutdown], [expiryMap] only grows: after any history of
    [Set], [Get] and sweeps on a new cache, the keys of [expiryMap] are
    exactly the [Id]s of the non-nil states the history has [Set], swept
    or not. *)
Theorem expiryMap_keeps_every_key (ops : list op) (k : string) :
  noShutdown ops ->
  is_Some (expiryMap (run ops) !! k) <-> k ∈ setIds ops.
Proof.
  intros Hno.
  destruct (fold_step_expiryMap ops NewMyStateCache k New_wf) as [_ Hiff];
    [rewrite NewMyStateCache_eq; cbn; eauto|done|].
  unfold run. rewrite Hiff. rewrite NewMyStateCache_eq. cbn [expiryMap].
  rewrite lookup_empty. split; [intros [[? ?]|?]; done|auto].
Qed.

Lemma expiryMap_keeps_every_key_witness :
  noShutdown [OpSet (Some stateA) Second 0; OpClean 5] /\
  is_Some (expiryMap (run [OpSet (Some stateA) Second 0; OpClean 5]) !! "a").
Proof.
  assert (H : noShutdown [OpSet (Some stateA) Second 0; OpClean 5])
    by (repeat constructor).
  split; [exact H|].
  apply (proj2 (expiryMap_keeps_every_key [OpSet (Some stateA) Second 0; OpClean 5] "a" H)).
  left.
Defined.

Lemma step_items_in_expiryMap c o :
  wf_cache c ->
  (forall k, is_Some (lookupItem c k) -> is_Some (expiryMap c !! k)) ->
  forall k, is_Some (lookupItem (step c o) k) -> is_Some (expiryMap (step c o) !! k).
Proof.
  intros Hwf Hinv k. destruct o as [state lifespan now|k' now|now|]; cbn [step].
  - destruct state as [st|]; [|apply Hinv].
    destruct (Set_spec st lifespan now c Hwf) as (c1 & p & Hpost & -> & _).
    destruct Hpost as (Hit & _ & _ & _ & Hem & _).
    destruct (items c) as [m|] eqn:Em; cbn [snd].
    + rewrite lookupItem_with_items. cbn [with_items expiryMap]. rewrite Hem.
      destruct (decide (k = Id st)) as [->|Hne].
      * rewrite !lookup_insert_eq. eauto.
      * rewrite !lookup_insert_ne by done. intros H. apply Hinv.
        unfold lookupItem. now rewrite Em.
    + unfold lookupItem. rewrite Hit. intros [? ?]. done.
  - apply Hinv.
  - destruct (clean_spec now c Hwf) as (c' & -> & Hpost).
    destruct Hpost as (_ & Hem & _ & _ & _ & _ & Hmono & _). cbn [snd].
    rewrite Hem. intros [it Hit]. apply Hinv. rewrite (Hmono k it Hit). eauto.
  - intros [it Hit]. done.
Qed.

Lemma run_items_in_expiryMap ops k :
  is_Some (lookupItem (run ops) k) -> is_Some (expiryMap (run ops) !! k).
Proof.
  unfold run.
  assert (H : forall c, wf_cache c ->
            (forall k, is_Some (lookupItem c k) -> is_Some (expiryMap c !! k)) ->
            forall k, is_Some (lookupItem (fold_left step ops c) k) ->
                      is_Some (expiryMap (fold_left step ops c) !! k)).
  { induction ops as [|o ops IH]; intros c Hwf Hinv; [done|].
    cbn [fold_left]. apply IH; [now apply step_wf|].
    now apply step_items_in_expiryMap. }
  apply H; [apply New_wf|]. intros k' [it Hit]. done.
Qed.

(** X4. The key sets nest, in every reachable cache: a key with a queue
    entry is a key of [expiryMap], which holds that very entry, and (unless
    the cache was shut down) the key has an item whose [expiresAt] is the
    entry's timestamp; and every key with an item is a key of
    [expiryMap]. *)
Theorem key_sets_nest (ops : list op) :
  (forall p e, p ∈ expirations (run ops) -> mem (run ops) !! p = Some e ->
     expiryMap (run ops) !! itemKey e = Some p /\
     (is_Some (items (run ops)) ->
      exists it, lookupItem (run ops) (itemKey e) = Some it /\
                 expiresAt it = unixExpiryTime e)) /\
  (forall k, is_Some (lookupItem (run ops) k) -> is_Some (expiryMap (run ops) !! k)).
Proof.
  split; [|intros k; apply run_items_in_expiryMap].
  intros p e Hp He. destruct (run_wf ops) as (_ & _ & Hlk & _ & Hst). split.
  - destruct (Hlk p Hp) as (e' & He' & Hl). cbn in He'. congruence.
  - intros [m Hm]. destruct (Hst p e m Hp He Hm) as (it & Hit & Hexp).
    exists it. unfold lookupItem. now rewrite Hm.
Qed.

(** X5. No key ever has two queue entries: in every reachable cache the
    queue holds at most one entry for each key. *)
Theorem queue_entries_per_key (ops : list op) (k : string) :
  (length (queueEntriesFor (run ops) k) <= 1)%nat.
Proof.
  pose proof (run_wf ops) as Hwf.
  destruct (expiryMap (run ops) !! k) as [p|] eqn:Hk.
  - destruct (decide (p ∈ expirations (run ops))) as [Hin|Hnin].
    + now rewrite (queueEntriesFor_on _ _ p Hwf Hk Hin).
    + rewrite (queueEntriesFor_off _ _ p Hwf Hk Hnin). cbn. lia.
  - unfold queueEntriesFor. rewrite filter_none; [cbn; lia|].
    intros x Hx Hkx. destruct Hwf as (_ & _ & Hlk & _).
    destruct (Hlk x Hx) as (e & He & Hl). cbn in He.
    rewrite He in Hkx. cbn in Hkx. injection Hkx as Hkx. congruence.
Qed.

(** X6. The [index] field is kept true, in every reachable cache: a queue
    entry records its own position in the slice, and an entry that
    [expiryMap] holds has index [-1] exactly when it is not on the queue. *)
Theorem index_tracks_position (ops : list op) :
  (forall (i : nat) p, expirations (run ops) !! i = Some p ->
     exists e, mem (run ops) !! p = Some e /\ index e = Z.of_nat i) /\
  (forall k p, expiryMap (run ops) !! k = Some p ->
     exists e, mem (run ops) !! p = Some e /\ itemKey e = k /\
               (index e = -1 <-> p ∉ expirations (run ops))).
Proof.
  destruct (run_wf ops) as (Hw & _ & _ & Htr & _). split.
  - intros i p Hi. apply (wfq_obj (qstate_of (run ops)) i p Hw Hi).
  - intros k p Hk. destruct (Htr k p Hk) as (e & He & Hke & Hcase). cbn in He.
    exists e. split; [done|]. split; [done|]. split.
    + intros Hi Hin.
      destruct (wfq_on_queue (qstate_of (run ops)) p e Hw Hin He). lia.
    + intros Hnin. destruct Hcase as [?|Hon]; [done|].
      exfalso. apply Hnin. eapply lookupZ_elem_of; eauto.
Qed.

(** X7. The first queue entry is the earliest: in every reachable cache no
    queue entry has a timestamp before that of [expirations[0]], the entry
    the sweep peeks at. *)
Theorem first_entry_is_earliest (ops : list op) (p0 p : loc) (e0 e : itemExpiry) :
  expirations (run ops) !! 0%nat = Some p0 ->
  p ∈ expirations (run ops) ->
  mem (run ops) !! p0 = Some e0 -> mem (run ops) !! p = Some e ->
  unixExpiryTime e0 <= unixExpiryTime e.
Proof.
  intros H0 Hp He0 He. destruct (run_wf ops) as (Hw & Hh & _).
  apply list_elem_of_lookup in Hp as [i Hi].
  pose proof (keys_lookup (qstate_of (run ops)) _ _ H0) as Hk0.
  pose proof (keys_lookup (qstate_of (run ops)) _ _ Hi) as Hki.
  assert (H : key_of (mem (run ops)) p0 <= key_of (mem (run ops)) p).
  { eapply (heapN_root_min _ _ Hh); eauto.
    - now rewrite keys_length.
    - eapply lookup_lt_Some; eauto. }
  unfold key_of in H. now rewrite He0, He in H.
Qed.

Lemma first_entry_is_earliest_witness :
  let ops := [OpSet (Some stateA) (20 * Second) 0; OpSet (Some stateB) (10 * Second) 0] in
  (expirations (run ops) !! 0%nat = Some 2%positive /\
   1%positive ∈ expirations (run ops) /\
   mem (run ops) !! 2%positive
   = Some {| itemKey := "b"; unixExpiryTime := 10; index := 0 |} /\
   mem (run ops) !! 1%positive
   = Some {| itemKey := "a"; unixExpiryTime := 20; index := 1 |}) /\
  10 <= 20.
Proof.
  set (ops := [OpSet (Some stateA) (20 * Second) 0; OpSet (Some stateB) (10 * Second) 0]).
  assert (H0 : expirations (run ops) !! 0%nat = Some 2%positive)
    by (vm_compute; reflexivity).
  assert (Hp : 1%positive ∈ expirations (run ops))
    by (apply (list_elem_of_lookup_2 _ 1%nat); vm_compute; reflexivity).
  assert (He0 : mem (run ops) !! 2%positive
                = Some {| itemKey := "b"; unixExpiryTime := 10; index := 0 |})
    by (vm_compute; reflexivity).
  assert (He : mem (run ops) !! 1%positive
               = Some {| itemKey := "a"; unixExpiryTime := 20; index := 1 |})
    by (vm_compute; reflexivity).
  split; [repeat split; assumption|].
  exact (first_entry_is_earliest ops _ _ _ _ H0 Hp He0 He).
Defined.

(** * Further properties of the queue *)

Lemma Pop_empty s :
  queue s = [] -> heap.Pop s = (Panic "index out of range", s).
Proof.
  intros Eq. unfold heap.Pop, expirationQueue.Len. unfold bind at 1. rewrite Eq.
  cbn [length]. unfold expirationQueue.Swap, bind, elemAt. now rewrite lookupZ_neg.
Qed.

Lemma Pop_min s p0 :
  wf_queue s -> queue s !! 0%nat = Some p0 ->
  exists s',
    heap.Pop s = (Ok p0, s') /\ wf_queue s' /\
    (forall p, p ∈ queue s <-> p = p0 \/ p ∈ queue s') /\
    (p0 ∉ queue s') /\
    (forall p, p ∈ queue s -> key_of (objs s) p0 <= key_of (objs s) p) /\
    (forall p, key_of (objs s') p = key_of (objs s) p) /\
    (exists e, objs s' !! p0 = Some e /\ index e = -1).
Proof.
  intros [Hw Hh] H0.
  destruct (Pop_spec s p0 Hw H0 Hh) as (s' & Hrun & Hw' & Hl & Hm & Hnot & Hr & He & Hh').
  exists s'. split; [done|]. split; [by split|]. split; [done|]. split; [done|].
  split; [|split; [|done]].
  - intros p Hp. apply list_elem_of_lookup in Hp as [i Hi].
    eapply (heapN_root_min _ _ Hh).
    + now rewrite keys_length.
    + eapply lookup_lt_Some; eauto.
    + now apply keys_lookup.
    + now apply keys_lookup.
  - intros p. eapply reindexed_key_of; eauto.
Qed.

(** X8. [heap.Pop] on the queue after any sequence of queue operations:
    on the empty queue it panics (index out of range) and leaves the queue
    as it was; otherwise it returns the first entry, whose timestamp is the
    least on the queue, takes exactly that entry off, sets its index to
    [-1], changes no timestamp and leaves a well-formed heap. *)
Theorem PopMin_returns_earliest (ops : list qop) :
  match queue (qrun ops) with
  | [] => heap.Pop (qrun ops) = (Panic "index out of range"%string, qrun ops)
  | p0 :: _ =>
      exists s',
        heap.Pop (qrun ops) = (Ok p0, s') /\ wf_queue s' /\
        (forall p, p ∈ queue (qrun ops) <-> p = p0 \/ p ∈ queue s') /\
        (p0 ∉ queue s') /\
        (forall p, p ∈ queue (qrun ops) ->
                   key_of (objs (qrun ops)) p0 <= key_of (objs (qrun ops)) p) /\
        (forall p, key_of (objs s') p = key_of (objs (qrun ops)) p) /\
        (exists e, objs s' !! p0 = Some e /\ index e = -1)
  end.
Proof.
  pose proof (qrun_wf ops) as Hwf.
  destruct (queue (qrun ops)) as [|p0 rest] eqn:Eq.
  - now apply Pop_empty.
  - rewrite <- Eq. apply Pop_min; [done|]. now rewrite Eq.
Qed.

(** X9. Successive [heap.Pop]s return entries in non-decreasing order of
    timestamp: after any sequence of queue operations, if a first [Pop]
    returns [p1] and a second one [p2], the timestamp of [p1] is at most
    that of [p2]. *)
Theorem PopMin_twice_in_order (ops : list qop) (p1 p2 : loc) (s1 s2 : qstate) :
  heap.Pop (qrun ops) = (Ok p1, s1) ->
  heap.Pop s1 = (Ok p2, s2) ->
  key_of (objs (qrun ops)) p1 <= key_of (objs (qrun ops)) p2.
Proof.
  intros H1 H2. pose proof (qrun_wf ops) as Hwf.
  destruct (queue (qrun ops)) as [|p0 rest] eqn:Eq.
  { rewrite (Pop_empty _ Eq) in H1. discriminate. }
  destruct (Pop_min (qrun ops) p0 Hwf) as (s' & Hrun & Hwf' & Hm & _ & Hmin & _);
    [now rewrite Eq|].
  rewrite Hrun in H1. injection H1 as -> ->.
  destruct (queue s1) as [|q0 rest'] eqn:Eq1.
  { rewrite (Pop_empty _ Eq1) in H2. discriminate. }
  destruct (Pop_min s1 q0 Hwf') as (s'' & Hrun' & _); [now rewrite Eq1|].
  rewrite Hrun' in H2. injection H2 as -> ->.
  apply Hmin. apply Hm. right. left.
Qed.

Lemma PopMin_twice_in_order_witness :
  let ops := [QPush "a" 30; QPush "b" 10; QPush "c" 20] in
  exists s1 s2,
    (heap.Pop (qrun ops) = (Ok 2%positive, s1) /\ heap.Pop s1 = (Ok 3%positive, s2)) /\
    key_of (objs (qrun ops)) 2%positive <= key_of (objs (qrun ops)) 3%positive.
Proof.
  set (ops := [QPush "a" 30; QPush "b" 10; QPush "c" 20]).
  exists (snd (heap.Pop (qrun ops))), (snd (heap.Pop (snd (heap.Pop (qrun ops))))).
  assert (H1 : heap.Pop (qrun ops) = (Ok 2%positive, snd (heap.Pop (qrun ops))))
    by (vm_compute; reflexivity).
  assert (H2 : heap.Pop (snd (heap.Pop (qrun ops)))
               = (Ok 3%positive, snd (heap.Pop (snd (heap.Pop (qrun ops))))))
    by (vm_compute; reflexivity).
  split; [split; assumption|].
  exact (PopMin_twice_in_order ops _ _ _ _ H1 H2).
Defined.

Lemma quot_parent_neg i : i < -1 -> Z.quot (i - 1) 2 <> i.
Proof.
  intros Hi E. replace (i - 1) with (- (1 - i)) in E by lia.
  rewrite Z.quot_opp_l in E by lia. rewrite Z.quot_div_nonneg in E by lia.
  pose proof (Z.div_lt_upper_bound (1 - i) 2 (- i) ltac:(lia) ltac:(lia)). lia.
Qed.

Lemma quot_parent_pos i : 0 < i -> Z.quot (i - 1) 2 <> i.
Proof.
  intros Hi E. rewrite Z.quot_div_nonneg in E by lia.
  pose proof (Z.div_le_upper_bound (i - 1) 2 (i - 1) ltac:(lia) ltac:(lia)). lia.
Qed.

(** X10. [heap.Fix] at an index off the slice: at [-1], the index of a
    popped entry, and at [0] on an empty queue it returns and changes
    nothing; below [-1], and at a positive index at or past the length, it
    panics (index out of range) before it changes anything.  This holds on
    every queue state. *)
Theorem Fix_off_the_slice (s : qstate) (i : Z) :
  (i = -1 \/ (i = 0 /\ queue s = []) -> heap.Fix i s = (Ok tt, s)) /\
  (i < -1 \/ (0 < i /\ Z.of_nat (length (queue s)) <= i) ->
   heap.Fix i s = (Panic "index out of range"%string, s)).
Proof.
  split.
  - intros [->|[-> Eq]]; [apply Fix_off_queue|].
    unfold heap.Fix, expirationQueue.Len, heap.down, heap.up, bind. rewrite Eq.
    reflexivity.
  - intros Hi.
    assert (Hdown : heap.down i (Z.of_nat (length (queue s))) s = (Ok false, s)).
    { unfold heap.down, bind. cbn [heap.down_loop].
      assert (E : (Z.of_nat (length (queue s)) <=? 2 * i + 1) || (2 * i + 1 <? 0) = true).
      { apply orb_true_iff. destruct Hi as [?|[? ?]]; [right|left]; lia. }
      rewrite E. unfold ret. now rewrite Z.ltb_irrefl. }
    unfold heap.Fix, expirationQueue.Len. unfold bind at 1.
    rewrite (bind_ok _ _ _ _ _ Hdown). cbn [negb].
    unfold heap.up. cbn [heap.up_loop].
    destruct (Z.eqb_spec (Z.quot (i - 1) 2) i) as [E|_].
    { exfalso. destruct Hi as [?|[? ?]];
        [eapply quot_parent_neg|eapply quot_parent_pos]; eauto. }
    unfold expirationQueue.Less, bind, elemAt.
    assert (Hl : lookupZ (queue s) i = None).
    { destruct Hi as [?|[? ?]]; [apply lookupZ_neg; lia|].
      unfold lookupZ. destruct (Z.ltb_spec i 0); [done|].
      apply lookup_ge_None_2. lia. }
    now rewrite Hl.
Qed.

(** * The driver's loop *)

Lemma populate_other visits : forall backoff c k,
  k ∉ map (fun v => Id (fst v)) visits ->
  lookupItem (populate visits backoff c) k = lookupItem c k.
Proof.
  induction visits as [|[st now] rest IH]; intros backoff c k Hk; [done|].
  cbn [populate]. rewrite IH.
  - apply Set_lookup_other. intros st' E. injection E as <-.
    intros E'. apply Hk. cbn. rewrite <- E'. left.
  - intros Hin. apply Hk. by right.
Qed.

Lemma populate_stores visits : forall backoff c (i : nat) st now,
  wf_cache c -> is_Some (items c) ->
  NoDup (map (fun v => Id (fst v)) visits) ->
  visits !! i = Some (st, now) ->
  lookupItem (populate visits backoff c) (Id st)
  = Some (newItem st (backoffAfter i backoff) now).
Proof.
  induction visits as [|[st0 now0] rest IH]; intros backoff c i st now Hwf Hs Hnd Hi;
    [done|].
  cbn [map fst] in Hnd. apply NoDup_cons in Hnd as [Hnot Hnd].
  cbn [populate]. destruct i as [|i].
  - cbn in Hi. injection Hi as -> ->.
    rewrite populate_other by done. now apply Set_stores.
  - cbn in Hi.
    replace (backoffAfter (S i) backoff) with (backoffAfter i (wrap64 (backoff * 2)))
      by (unfold backoffAfter; now rewrite Nat.iter_succ_r).
    apply IH; [now apply Set_wf| |done|done].
    apply (step_items_some c (OpSet (Some st0) backoff now0)); done.
Qed.

(** X11. The loop of the driver caches every state it visits, whatever
    the order of the visits: on a reachable cache that was not shut down,
    if the states visited have pairwise different [Id]s, then after the
    loop the state visited in round [i] is stored with the clock reading of
    its [Set] and the lifespan the backoff had in that round, the initial
    backoff doubled [i] times (in [int64]). *)
Theorem populate_stores_every_state (ops : list op) (visits : list (MyState * Z))
    (backoff : Z) (i : nat) (st : MyState) (now : Z) :
  is_Some (items (run ops)) ->
  NoDup (map (fun v => Id (fst v)) visits) ->
  visits !! i = Some (st, now) ->
  lookupItem (populate visits backoff (run ops)) (Id st)
  = Some {| stateObject := Some st; cachedAt := now;
            expiresAt := wrap64 (now + lifespanSeconds (backoffAfter i backoff)) |}.
Proof.
  intros Hs Hnd Hi. apply (populate_stores visits backoff (run ops) i st now); auto.
  apply run_wf.
Qed.

Lemma populate_stores_every_state_witness :
  let visits := map (fun st => (st, 100)) (rev states) in
  (is_Some (items (run [])) /\
   NoDup (map (fun v => Id (fst v)) visits) /\
   visits !! 5%nat = Some ({| Id := "state#1"; Values := [1; 2; 3] |}, 100)) /\
  lookupItem (populate visits (10 * Second) (run [])) "state#1"
  = Some {| stateObject := Some {| Id := "state#1"; Values := [1; 2; 3] |};
            cachedAt := 100; expiresAt := 420 |}.
Proof.
  set (visits := map (fun st => (st, 100)) (rev states)).
  assert (H1 : is_Some (items (run []))) by (vm_compute; eauto).
  assert (H2 : NoDup (map (fun v => Id (fst v)) visits)).
  { refine (bool_decide_unpack _ _). vm_compute. exact I. }
  assert (H3 : visits !! 5%nat = Some ({| Id := "state#1"; Values := [1; 2; 3] |}, 100))
    by reflexivity.
  split; [repeat split; assumption|].
  exact (populate_stores_every_state [] visits (10 * Second) 5
           {| Id := "state#1"; Values := [1; 2; 3] |} 100 H1 H2 H3).
Defined.

(** * The cache without a heap *)

Lemma Basic_clean_visit_lookup now m id k :
  Basic.clean_visit now m id !! k =
  if decide (k = id) then Basic.survives now (m !! k) else m !! k.
Proof.
  unfold Basic.clean_visit, Basic.survives.
  destruct (decide (k = id)) as [->|Hne].
  - destruct (m !! id) as [item|] eqn:E; [|now rewrite E].
    destruct (Basic.ExpiresAt item <=? now); [apply lookup_delete_eq|done].
  - destruct (m !! id) as [item|]; [|done].
    destruct (Basic.ExpiresAt item <=? now); [now apply lookup_delete_ne|done].
Qed.

Lemma Basic_survives_twice now o :
  Basic.survives now (Basic.survives now o) = Basic.survives now o.
Proof.
  destruct o as [item|]; [|done]. cbn.
  destruct (Basic.ExpiresAt item <=? now) eqn:E; [done|]. cbn. now rewrite E.
Qed.

Lemma Basic_fold_visit_lookup now order : forall m k,
  fold_left (Basic.clean_visit now) order m !! k =
  if decide (k ∈ order) then Basic.survives now (m !! k) else m !! k.
Proof.
  induction order as [|id order IH]; intros m k.
  { cbn. destruct (decide (k ∈ [])) as [H|_]; [by apply elem_of_nil in H|done]. }
  cbn [fold_left]. rewrite IH, Basic_clean_visit_lookup.
  destruct (decide (k = id)) as [->|Hne].
  - destruct (decide (id ∈ id :: order)) as [_|Hn]; [|exfalso; apply Hn; left].
    destruct (decide (id ∈ order)); [apply Basic_survives_twice|done].
  - destruct (decide (k ∈ order)) as [Hin|Hnin];
      destruct (decide (k ∈ id :: order)) as [Hin'|Hnin']; try done.
    + exfalso. apply Hnin'. by right.
    + exfalso. apply elem_of_cons in Hin' as [?|?]; done.
Qed.

Lemma Basic_clean_in_lookup c now order k :
  Basic.visits_of (Basic.items c) order ->
  Basic.items (Basic.clean_in order now c) !! k
  = Basic.survives now (Basic.items c !! k).
Proof.
  intros [_ Hall]. unfold Basic.clean_in. cbn [Basic.items].
  rewrite Basic_fold_visit_lookup.
  destruct (decide (k ∈ order)) as [Hin|Hnin]; [done|].
  destruct (Basic.items c !! k) as [item|] eqn:E; [|done].
  exfalso. apply Hnin, Hall. eauto.
Qed.

(** X12. The sweep by linear scan leaves exactly the entries that have not
    expired, whatever order [range] visits the map in: after it, a key has
    the item it had if that item expires after [now], and no item
    otherwise. *)
Theorem Basic_clean_removes_exactly_expired (c : Basic.MyStateCache) (now : Z)
    (order : list string) (k : string) :
  Basic.visits_of (Basic.items c) order ->
  Basic.items (Basic.clean_in order now c) !! k
  = match Basic.items c !! k with
    | Some item => if Basic.ExpiresAt item <=? now then None else Some item
    | None => None
    end.
Proof. apply Basic_clean_in_lookup. Qed.

Lemma Basic_clean_removes_exactly_expired_witness :
  let c := Basic.run [OpSet (Some stateA) (10 * Second) 0;
                      OpSet (Some stateB) (20 * Second) 0] in
  Basic.visits_of (Basic.items c) ["b"; "a"]%string /\
  Basic.items (Basic.clean_in ["b"; "a"]%string 10 c) !! "a" = None.
Proof.
  set (c := Basic.run [OpSet (Some stateA) (10 * Second) 0;
                       OpSet (Some stateB) (20 * Second) 0]).
  assert (H : Basic.visits_of (Basic.items c) ["b"; "a"]%string).
  { split; [refine (bool_decide_unpack _ _); vm_compute; exact I|].
    intros k. rewrite !elem_of_cons, elem_of_nil.
    subst c. unfold Basic.run. cbn [fold_left Basic.step Basic.Set_ snd Basic.items stateA stateB Id Basic.NewMyStateCache].
    destruct (decide (k = "b"%string)) as [->|Hb].
    { rewrite lookup_insert_eq. split; eauto. }
    rewrite lookup_insert_ne by done.
    destruct (decide (k = "a"%string)) as [->|Ha].
    { rewrite lookup_insert_eq. split; eauto. }
    rewrite lookup_insert_ne by done. rewrite lookup_empty.
    split; [intros [?|[?|[]]]; done|intros [? ?]; done]. }
  split; [exact H|].
  exact (Basic_clean_removes_exactly_expired c 10 ["b"; "a"]%string "a" H).
Defined.

Lemma Basic_visits_canonical (m : gmap string Basic.CachedItem) :
  Basic.visits_of m (map fst (map_to_list m)).
Proof.
  split.
  - apply NoDup_fst_map_to_list.
  - intros k. rewrite list_elem_of_fmap. split.
    + intros ([k' it] & -> & Hin). apply elem_of_map_to_list in Hin. cbn. eauto.
    + intros [it Hit]. exists (k, it). split; [done|]. now apply elem_of_map_to_list.
Qed.

Lemma Basic_clean_lookup c now k :
  Basic.items (Basic.clean now c) !! k = Basic.survives now (Basic.items c !! k).
Proof.
  unfold Basic.clean.
  apply Basic_clean_in_lookup, Basic_visits_canonical.
Qed.

Lemma Basic_survives_compose s1 s2 o :
  Basic.survives s2 (Basic.survives s1 o) = Basic.survives (Z.max s1 s2) o.
Proof.
  destruct o as [item|]; [|done]. cbn.
  destruct (Z.leb_spec (Basic.ExpiresAt item) s1);
    destruct (Z.leb_spec (Basic.ExpiresAt item) (Z.max s1 s2)); try lia; try done.
  cbn. destruct (Z.leb_spec (Basic.ExpiresAt item) s2); try lia; done.
  cbn. destruct (Z.leb_spec (Basic.ExpiresAt item) s2); try lia; done.
Qed.

Lemma Basic_cache_eq (c1 c2 : Basic.MyStateCache) :
  (forall k, Basic.items c1 !! k = Basic.items c2 !! k) ->
  Basic.cancelled c1 = Basic.cancelled c2 -> c1 = c2.
Proof.
  destruct c1 as [m1 b1], c2 as [m2 b2]. cbn. intros Hm ->.
  f_equal. now apply map_eq.
Qed.

(** X13. Sweeps by linear scan compose: a sweep at [s1] followed by one at
    [s2] leaves the cache a single sweep at the later of the two times
    leaves; in particular a repeated sweep changes nothing. *)
Theorem Basic_clean_twice (c : Basic.MyStateCache) (s1 s2 : Z) :
  Basic.clean s2 (Basic.clean s1 c) = Basic.clean (Z.max s1 s2) c /\
  Basic.clean s1 (Basic.clean s1 c) = Basic.clean s1 c.
Proof.
  split; apply Basic_cache_eq; try done; intros k; rewrite !Basic_clean_lookup.
  - apply Basic_survives_compose.
  - apply Basic_survives_twice.
Qed.

Lemma Basic_Get_clean k q s c :
  s <= q -> Basic.Get k q (Basic.clean s c) = Basic.Get k q c.
Proof.
  intros Hsq. unfold Basic.Get. rewrite Basic_clean_lookup.
  destruct (Basic.items c !! k) as [item|]; [|done]. cbn.
  destruct (Z.leb_spec (Basic.ExpiresAt item) s) as [Hle|Hgt]; [|done].
  destruct (Z.leb_spec (Basic.ExpiresAt item) q); [done|lia].
Qed.

(** X14. With the linear scan a sweep cannot be observed at all: [Get] at
    a time not before the sweep returns the same result whether or not the
    sweep ran, on every cache. *)
Theorem Basic_sweep_invisible_to_Get (c : Basic.MyStateCache) (k : string) (s q : Z) :
  s <= q ->
  Basic.Get k q (Basic.clean s c) = Basic.Get k q c.
Proof. apply Basic_Get_clean. Qed.

Lemma Basic_sweep_invisible_to_Get_witness :
  10 <= 10 /\
  Basic.Get "a" 10 (Basic.clean 10 (Basic.run [OpSet (Some stateA) (10 * Second) 0]))
  = Basic.Get "a" 10 (Basic.run [OpSet (Some stateA) (10 * Second) 0]).
Proof.
  assert (H : 10 <= 10) by lia.
  split; [exact H|].
  exact (Basic_sweep_invisible_to_Get
           (Basic.run [OpSet (Some stateA) (10 * Second) 0]) "a" 10 10 H).
Defined.

Lemma Basic_Get_sweeps times : forall c k q,
  Forall (fun s => s <= q) times ->
  Basic.Get k q (Basic.sweeps times c) = Basic.Get k q c.
Proof.
  induction times as [|s times IH]; intros c k q Hall; [done|].
  apply Forall_cons in Hall as [Hs Hall]. cbn [Basic.sweeps fold_left].
  fold (Basic.sweeps times (Basic.clean s c)).
  rewrite IH by done. now apply Basic_Get_clean.
Qed.

Lemma Basic_sweeps_only_delete times : forall c k item,
  Basic.items (Basic.sweeps times c) !! k = Some item -> Basic.items c !! k = Some item.
Proof.
  induction times as [|s times IH]; intros c k item H; [done|].
  cbn [Basic.sweeps fold_left] in H. fold (Basic.sweeps times (Basic.clean s c)) in H.
  apply IH in H. rewrite Basic_clean_lookup in H.
  destruct (Basic.items c !! k) as [it|]; [|done]. cbn in H.
  destruct (Basic.ExpiresAt it <=? s); [done|]. done.
Qed.

(** X15. [Set] and [Get] of the cache without a heap.  [Set] of a nil
    state panics on [state.Id] and leaves the cache as it was.  After [Set]
    of a state at time [t] the entry expires at [t + int64(L.Seconds())]:
    [Get] returns the state at every time before that instant, whatever
    sweeps ran up to the query time, and returns nil at every time from
    that instant on, swept or not. *)
Theorem Basic_Set_then_Get (c : Basic.MyStateCache) (st : MyState)
    (lifespan t q : Z) (times : list Z) :
  let expiry := wrap64 (t + lifespanSeconds lifespan) in
  let c' := Basic.sweeps times (snd (Basic.Set_ (Some st) lifespan t c)) in
  Basic.Set_ None lifespan t c = (Panic "nil pointer dereference"%string, c) /\
  fst (Basic.Set_ (Some st) lifespan t c) = Ok tt /\
  (q < expiry -> Forall (fun s => s <= q) times -> Basic.Get (Id st) q c' = Some st) /\
  (expiry <= q -> Basic.Get (Id st) q c' = None).
Proof.
  intros expiry c'. split; [done|]. split; [done|].
  assert (Hit : Basic.items (snd (Basic.Set_ (Some st) lifespan t c)) !! Id st
                = Some {| Basic.StateObject := Some st; Basic.CachedAt := t;
                          Basic.ExpiresAt := expiry |}).
  { cbn. apply lookup_insert_eq. }
  split.
  - intros Hlt Hall. unfold c'. rewrite Basic_Get_sweeps by done.
    unfold Basic.Get. rewrite Hit. cbn.
    destruct (Z.leb_spec expiry q); [lia|done].
  - intros Hle. unfold Basic.Get.
    destruct (Basic.items c' !! Id st) as [item|] eqn:E; [|done].
    apply Basic_sweeps_only_delete in E. rewrite Hit in E. injection E as <-. cbn.
    destruct (Z.leb_spec expiry q); [done|lia].
Qed.

(** * The two caches compared *)

Lemma agree_step q h b o :
  wf_cache h -> is_Some (items h) -> isShutdown o = false ->
  match o with OpClean s => s <= q | _ => True end ->
  agree q h b -> agree q (step h o) (Basic.step b o).
Proof.
  intros Hwf Hs Ho Hq Hag k. specialize (Hag k).
  destruct o as [state lifespan now|k' now|s|]; cbn [step Basic.step]; try done.
  - destruct state as [st|]; [|exact Hag].
    destruct (Set_result st lifespan now h Hwf Hs) as (c1 & p & m & Hm & _ & -> & _).
    cbn [snd Basic.Set_ Basic.items]. rewrite lookupItem_with_items.
    destruct (decide (k = Id st)) as [->|Hne].
    + rewrite !lookup_insert_eq. by repeat split.
    + rewrite !lookup_insert_ne by done.
      unfold lookupItem in Hag. now rewrite Hm in Hag.
  - destruct (clean_spec s h Hwf) as (h' & -> & Hpost). cbn [snd].
    destruct Hpost as (_ & _ & _ & _ & _ & _ & Hmono & Hdue & Hnd & _).
    rewrite Basic_clean_lookup.
    destruct (due_dec h s k) as [Hd|Hd].
    + rewrite (Hdue k Hd).
      destruct (lookupItem h k) as [it|] eqn:Eh.
      * pose proof (due_item_expired h s k it Hwf Hd Eh) as Hexp.
        destruct (Basic.items b !! k) as [it'|]; [|done]. cbn.
        destruct Hag as (_ & _ & He). rewrite <- He.
        destruct (Z.leb_spec (expiresAt it) s); [done|lia].
      * destruct (Basic.items b !! k); done.
    + rewrite (Hnd k Hd).
      destruct (lookupItem h k) as [it|] eqn:Eh;
        destruct (Basic.items b !! k) as [it'|] eqn:Eb; cbn; try done.
      destruct (Z.leb_spec (Basic.ExpiresAt it') s) as [Hle|Hgt]; [|done].
      destruct Hag as (_ & _ & He). lia.
Qed.

Lemma agree_fold q ops : forall h b,
  wf_cache h -> is_Some (items h) -> noShutdown ops -> sweepsUpTo q ops ->
  agree q h b ->
  agree q (fold_left step ops h) (fold_left Basic.step ops b).
Proof.
  induction ops as [|o ops IH]; intros h b Hwf Hs Hno Hsw Hag; [done|].
  apply Forall_cons in Hno as [Ho Hno]. apply Forall_cons in Hsw as [Hq Hsw].
  cbn [fold_left]. apply IH; auto using step_wf, step_items_some, agree_step.
Qed.

(** X16. The heap-driven sweep and the linear scan cannot be told apart
    through [Get]: run the same history of [Set]s, [Get]s and sweeps,
    without [Shutdown], on a new cache of each kind; then at every time [q]
    not before the sweeps of the history, [Get] of the heap-backed cache
    returns the state that [Get] of the cache without a heap returns.  A
    [Set] of a nil state in the history leaves either cache as it was: the
    heap-backed cache rejects it with an error, the other one panics on
    [state.Id] before it writes. *)
Theorem heap_cache_agrees_with_linear_scan (ops : list op) (k : string) (q : Z) :
  noShutdown ops -> sweepsUpTo q ops ->
  fst (Get k q (run ops)) = Basic.Get k q (Basic.run ops).
Proof.
  intros Hno Hsw.
  assert (Hag : agree q (run ops) (Basic.run ops)).
  { apply agree_fold; [apply New_wf| |done|done|].
    - rewrite NewMyStateCache_eq. cbn. eauto.
    - intros k'. rewrite NewMyStateCache_eq. cbn. now rewrite !lookup_empty. }
  specialize (Hag k). unfold Get, Basic.Get.
  destruct (lookupItem (run ops) k) as [it|];
    destruct (Basic.items (Basic.run ops) !! k) as [it'|]; try done.
  - destruct Hag as (Ho & _ & He). rewrite <- He, <- Ho.
    now destruct (expiresAt it <=? q).
  - destruct (Z.leb_spec (expiresAt it) q); [done|lia].
Qed.

Lemma heap_cache_agrees_with_linear_scan_witness :
  let ops := [OpSet (Some stateA) (10 * Second) 0; OpClean 10;
              OpSet (Some stateA) (10 * Second) 20; OpClean 40] in
  (noShutdown ops /\ sweepsUpTo 40 ops) /\
  fst (Get "a" 40 (run ops)) = Basic.Get "a" 40 (Basic.run ops).
Proof.
  set (ops := [OpSet (Some stateA) (10 * Second) 0; OpClean 10;
               OpSet (Some stateA) (10 * Second) 20; OpClean 40]).
  assert (H1 : noShutdown ops) by (repeat constructor).
  assert (H2 : sweepsUpTo 40 ops) by (repeat constructor; lia).
  split; [split; assumption|].
  exact (heap_cache_agrees_with_linear_scan ops "a" 40 H1 H2).
Defined.

(** * The second driver's loop *)

Lemma Basic_populate_other visits : forall backoff c k,
  k ∉ map (fun v => Id (fst v)) visits ->
  Basic.items (Basic.populate visits backoff c) !! k = Basic.items c !! k.
Proof.
  induction visits as [|[st now] rest IH]; intros backoff c k Hk; [done|].
  cbn [Basic.populate]. rewrite IH.
  - cbn. apply lookup_insert_ne. intros E. apply Hk. cbn. rewrite E. left.
  - intros Hin. apply Hk. by right.
Qed.

(** X17. The loop of the second driver caches every state it visits,
    whatever the order of the visits: if the states visited have pairwise
    different [Id]s, then after the loop the state visited in round [i] is
    stored with the clock reading of its [Set] and the lifespan the backoff
    had in that round, the initial backoff with [i] times ten seconds added
    (in [int64]). *)
Theorem Basic_populate_stores_every_state (visits : list (MyState * Z)) :
  forall (backoff : Z) (c : Basic.MyStateCache) (i : nat) (st : MyState) (now : Z),
  NoDup (map (fun v => Id (fst v)) visits) ->
  visits !! i = Some (st, now) ->
  Basic.items (Basic.populate visits backoff c) !! Id st
  = Some {| Basic.StateObject := Some st; Basic.CachedAt := now;
            Basic.ExpiresAt :=
              wrap64 (now + lifespanSeconds
                              (Nat.iter i (fun b => wrap64 (b + wrap64 (Second * 10)))
                                        backoff)) |}.
Proof.
  induction visits as [|[st0 now0] rest IH]; intros backoff c i st now Hnd Hi; [done|].
  cbn [map fst] in Hnd. apply NoDup_cons in Hnd as [Hnot Hnd].
  cbn [Basic.populate]. destruct i as [|i].
  - cbn in Hi. injection Hi as -> ->.
    rewrite Basic_populate_other by done. cbn. apply lookup_insert_eq.
  - cbn in Hi. rewrite Nat.iter_succ_r. now apply IH.
Qed.

Lemma Basic_populate_stores_every_state_witness :
  let visits := [(stateB, 5); (stateA, 6)] in
  (NoDup (map (fun v => Id (fst v)) visits) /\ visits !! 1%nat = Some (stateA, 6)) /\
  Basic.items (Basic.populate visits (10 * Second) Basic.NewMyStateCache) !! "a"
  = Some {| Basic.StateObject := Some stateA; Basic.CachedAt := 6;
            Basic.ExpiresAt := 26 |}.
Proof.
  set (visits := [(stateB, 5); (stateA, 6)]).
  assert (H1 : NoDup (map (fun v => Id (fst v)) visits)).
  { refine (bool_decide_unpack _ _). vm_compute. exact I. }
  assert (H2 : visits !! 1%nat = Some (stateA, 6)) by reflexivity.
  split; [split; assumption|].
  exact (Basic_populate_stores_every_state visits (10 * Second) Basic.NewMyStateCache
           1 stateA 6 H1 H2).
Defined.

(** * Channels used by one goroutine *)

(** X18. [doesBoth] on a channel that holds no more than its capacity:
    on an empty channel it blocks at the receive, with nothing printed and
    the channel untouched; on a channel that holds a message it returns,
    having taken the oldest message and queued [msg] behind the others, so
    that the channel holds as many messages as before, and having printed
    the message received and the message sent. *)
Theorem doesBoth_takes_oldest_and_queues (ch : Channels.chan) (msg : string)
    (out : list string) :
  Channels.wf ch ->
  match Channels.buffer ch with
  | [] => Channels.doesBoth ch msg out = Channels.Blocks ch out
  | received :: rest =>
      Channels.doesBoth ch msg out
      = Channels.Returns
          {| Channels.capacity := Channels.capacity ch;
             Channels.buffer := rest ++ [msg] |}
          (out ++ ["'doesBoth()' received message '" +:+ received +:+ "' ";
                   "'doesBoth()' sent message '" +:+ msg +:+ "' "])
  end.
Proof.
  intros Hwf. unfold Channels.wf in Hwf. unfold Channels.doesBoth, Channels.recv.
  destruct (Channels.buffer ch) as [|received rest] eqn:Eb; [done|].
  unfold Channels.send. cbn [Channels.buffer Channels.capacity].
  cbn in Hwf. destruct (decide (length rest < Channels.capacity ch)%nat); [|lia].
  now rewrite <- app_assoc.
Qed.

Lemma doesBoth_takes_oldest_and_queues_witness :
  Channels.wf {| Channels.capacity := 3; Channels.buffer := ["hi!"%string] |} /\
  Channels.doesBoth {| Channels.capacity := 3; Channels.buffer := ["hi!"%string] |}
                    "hello!" []
  = Channels.Returns {| Channels.capacity := 3; Channels.buffer := ["hello!"%string] |}
      ["'doesBoth()' received message 'hi!' "%string;
       "'doesBoth()' sent message 'hello!' "%string].
Proof.
  assert (H : Channels.wf {| Channels.capacity := 3; Channels.buffer := ["hi!"%string] |})
    by (unfold Channels.wf; cbn; lia).
  split; [exact H|].
  exact (doesBoth_takes_oldest_and_queues _ "hello!" [] H).
Defined.

(** The example itself returns: it prints four lines, the last receive
    takes "hello!", and "aloha!" stays in the channel. *)
Example Channels_run :
  Channels.run
  = Channels.Returns {| Channels.capacity := 3; Channels.buffer := ["aloha!"%string] |}
      ["'doesBoth()' received message 'hi!' "%string;
       "'doesBoth()' sent message 'hello!' "%string;
       "'sendOnly()' sent message 'aloha!' "%string;
       "'receiveOnly()' received message 'hello!' "%string].
Proof. reflexivity. Qed.

(** * The file list *)

Lemma string_length_app (s t : string) :
  String.length (s +:+ t) = (String.length s + String.length t)%nat.
Proof. induction s as [|a s IH]; [done|]. cbn [String.length Nat.add]. rewrite <- IH. done. Qed.

Lemma string_app_inj_r (s1 s2 t : string) : s1 +:+ t = s2 +:+ t -> s1 = s2.
Proof.
  revert s2. induction s1 as [|a s1 IH]; intros s2 H.
  - destruct s2 as [|b s2]; [done|].
    apply (f_equal String.length) in H.
    rewrite !string_length_app in H. cbn [String.length] in H. lia.
  - destruct s2 as [|b s2].
    + apply (f_equal String.length) in H.
      rewrite !string_length_app in H. cbn [String.length] in H. lia.
    + change (String a (s1 +:+ t) = String b (s2 +:+ t)) in H.
      injection H as -> H. f_equal. now apply IH.
Qed.

Lemma fileName_inj (i j : Z) : Files.fileName i = Files.fileName j -> i = j.
Proof.
  unfold Files.fileName. intros H.
  apply (inj (String.append "file")) in H. apply string_app_inj_r in H. apply (inj pretty) in H. lia.
Qed.

Lemma fold_insert_lookup {A} (f : nat -> A) (js : list nat) : forall (l : list A) (j : nat),
  fold_left (fun files i => <[i := f i]> files) js l !! j =
  if decide (j ∈ js /\ (j < length l)%nat) then Some (f j) else l !! j.
Proof.
  induction js as [|i js IH]; intros l j.
  { cbn. destruct (decide _) as [[H _]|_]; [by apply elem_of_nil in H|done]. }
  cbn [fold_left]. rewrite IH, length_insert.
  destruct (decide (j ∈ js /\ (j < length l)%nat)) as [[Hin Hlt]|Hn].
  - destruct (decide _) as [_|Hn']; [done|]. exfalso. apply Hn'. split; [by right|done].
  - destruct (decide (j = i)) as [->|Hne].
    + destruct (decide (i ∈ i :: js /\ (i < length l)%nat)) as [[_ Hlt]|Hn'].
      * now apply list_lookup_insert_eq.
      * rewrite list_insert_ge; [done|]. apply Nat.nlt_ge. intros Hlt. apply Hn'.
        split; [left|done].
    + rewrite list_lookup_insert_ne by done.
      destruct (decide _) as [[Hin Hlt]|_]; [|done].
      exfalso. apply Hn. apply elem_of_cons in Hin as [?|?]; done.
Qed.

Lemma fold_insert_length {A} (f : nat -> A) (js : list nat) : forall (l : list A),
  length (fold_left (fun files i => <[i := f i]> files) js l) = length l.
Proof.
  induction js as [|i js IH]; intros l; [done|].
  cbn [fold_left]. now rewrite IH, length_insert.
Qed.

Lemma makesliceOutOfRange_spec count :
  Files.makesliceOutOfRange count = true <->
  count < 0 \/ Files.maxAlloc < Files.fileInfoSize * count.
Proof.
  unfold Files.makesliceOutOfRange.
  rewrite orb_true_iff, Z.ltb_lt, Z.ltb_lt. tauto.
Qed.

Lemma generate_Ok count intn :
  Files.makesliceOutOfRange count = false ->
  exists files,
    Files.generateLargeFileList count intn = Ok files /\
    length files = Z.to_nat count /\
    forall i : nat, (i < Z.to_nat count)%nat ->
      files !! i = Some {| Files.name := Files.fileName (Z.of_nat i);
                           Files.size := intn i + 1 |}.
Proof.
  intros Hc. unfold Files.generateLargeFileList. rewrite Hc.
  assert (Hpos : 0 <= count).
  { destruct (Z.ltb_spec count 0) as [Hneg|]; [|done].
    rewrite (proj2 (makesliceOutOfRange_spec count)) in Hc; [done|by left]. }
  eexists. split; [done|]. split.
  - now rewrite fold_insert_length, length_replicate.
  - intros i Hi.
    rewrite (fold_insert_lookup
               (fun i => {| Files.name := Files.fileName (Z.of_nat i);
                            Files.size := intn i + 1 |})).
    rewrite length_replicate. destruct (decide _) as [_|Hn]; [done|].
    exfalso. apply Hn. split; [|done]. apply elem_of_seq. lia.
Qed.

(** X19. [generateLargeFileList]: a count that is negative, or whose
    [24 * count] bytes exceed [maxAlloc], panics in [make] (makeslice: len
    out of range); for every other count, and draws of [rand.Intn(3)] in
    their range, the list has [count] files, the file at index [i] is
    named "file<i+1>.txt" and has a size from 1 to 3, and no two files have
    the same name. *)
Theorem generateLargeFileList_shape (count : Z) (intn : nat -> Z) :
  (forall i, 0 <= intn i < 3) ->
  match Files.generateLargeFileList count intn with
  | Ok files =>
      0 <= count /\ Files.fileInfoSize * count <= Files.maxAlloc /\
      Z.of_nat (length files) = count /\
      (forall i : nat, (i < length files)%nat ->
         exists f, files !! i = Some f /\
                   Files.name f = "file" +:+ pretty (Z.of_nat i + 1) +:+ ".txt" /\
                   1 <= Files.size f <= 3) /\
      NoDup (map Files.name files)
  | Panic msg =>
      (count < 0 \/ Files.maxAlloc < Files.fileInfoSize * count) /\
      msg = "makeslice: len out of range"%string
  | OutOfFuel => False
  end.
Proof.
  intros Hdraw. destruct (Files.makesliceOutOfRange count) eqn:Hrange.
  - unfold Files.generateLargeFileList. rewrite Hrange.
    split; [by apply makesliceOutOfRange_spec|done].
  - assert (Hin : 0 <= count /\ Files.fileInfoSize * count <= Files.maxAlloc).
    { destruct (Z.ltb_spec count 0) as [Hneg|];
        [rewrite (proj2 (makesliceOutOfRange_spec count)) in Hrange; [done|by left]|].
      destruct (Z.ltb_spec Files.maxAlloc (Files.fileInfoSize * count)) as [Hbig|];
        [rewrite (proj2 (makesliceOutOfRange_spec count)) in Hrange; [done|by right]|].
      done. }
    destruct Hin as [Hpos Hfit].
    destruct (generate_Ok count intn Hrange) as (files & -> & Hlen & Hfiles).
    split; [done|]. split; [done|]. split; [lia|]. split.
    + intros i Hi. rewrite Hlen in Hi. eexists. split; [apply Hfiles, Hi|].
      cbn [Files.name Files.size]. split; [done|]. specialize (Hdraw i). lia.
    + replace (map Files.name files)
        with ((fun i : nat => Files.fileName (Z.of_nat i)) <$> seq 0 (Z.to_nat count)).
      * apply NoDup_fmap_2; [|apply NoDup_seq].
        intros a b E. apply fileName_inj in E. lia.
      * apply list_eq. intros i. rewrite !list_lookup_fmap.
        destruct (decide (i < Z.to_nat count)%nat) as [Hi|Hi].
        -- rewrite (Hfiles i Hi), lookup_seq_lt by done. done.
        -- rewrite lookup_seq_ge by lia.
           rewrite (lookup_ge_None_2 files i) by lia. done.
Qed.

Lemma generateLargeFileList_shape_witness :
  (forall i : nat, 0 <= (fun _ => 2) i < 3) /\
  exists files, Files.generateLargeFileList 200 (fun _ => 2) = Ok files /\
                Z.of_nat (length files) = 200.
Proof.
  assert (H : forall i : nat, 0 <= (fun _ : nat => 2) i < 3) by (intros i; cbn; lia).
  split; [exact H|].
  pose proof (generateLargeFileList_shape 200 (fun _ => 2) H) as Hs.
  destruct (Files.generateLargeFileList 200 (fun _ => 2)) as [files|msg|].
  - exists files. split; [reflexivity|]. exact (proj1 (proj2 (proj2 Hs))).
  - exfalso. destruct Hs as [[Hneg|Hbig] _]; [lia|].
    vm_compute in Hbig. discriminate.
  - destruct Hs.
Defined.

Lemma stringsIndex_file (s : string) : Files.stringsIndex ("file" +:+ s) "file" = 0.
Proof. destruct s; reflexivity. Qed.

(** X20. A worker reads the first file whatever file name it received:
    for every file of a generated list, [strings.Index(name, "file")] is 0,
    so the lookup [files[fileIndex]] yields [files[0]], and the size the
    worker sleeps for is that of the first file. *)
Theorem worker_reads_first_file (count : Z) (intn : nat -> Z)
    (files : list Files.FileInfo) (i : nat) (f : Files.FileInfo) :
  Files.generateLargeFileList count intn = Ok files ->
  files !! i = Some f ->
  exists first,
    files !! 0%nat = Some first /\ Files.workerFile files (Files.name f) = Ok first.
Proof.
  intros Hgen Hf.
  destruct (Files.makesliceOutOfRange count) eqn:Hrange.
  { unfold Files.generateLargeFileList in Hgen. now rewrite Hrange in Hgen. }
  destruct (generate_Ok count intn Hrange) as (files' & Hgen' & Hlen & Hfiles).
  rewrite Hgen in Hgen'. injection Hgen' as <-.
  pose proof (lookup_lt_Some _ _ _ Hf) as Hi.
  rewrite (Hfiles i) in Hf by lia. injection Hf as <-.
  rewrite (Hfiles 0%nat) by lia. eexists. split; [done|].
  unfold Files.workerFile. cbn [Files.name]. unfold Files.fileName.
  rewrite stringsIndex_file. change 0 with (Z.of_nat 0). rewrite lookupZ_nat.
  now rewrite (Hfiles 0%nat) by lia.
Qed.

Lemma worker_reads_first_file_witness :
  exists files f first,
    (Files.generateLargeFileList 3 (fun i => Z.of_nat i) = Ok files /\
     files !! 2%nat = Some f) /\
    Files.size f = 3 /\ Files.size first = 1 /\
    Files.workerFile files (Files.name f) = Ok first.
Proof.
  set (files := [ {| Files.name := "file1.txt"; Files.size := 1 |};
                  {| Files.name := "file2.txt"; Files.size := 2 |};
                  {| Files.name := "file3.txt"; Files.size := 3 |} ]).
  assert (H1 : Files.generateLargeFileList 3 (fun i => Z.of_nat i) = Ok files)
    by (vm_compute; reflexivity).
  assert (H2 : files !! 2%nat = Some {| Files.name := "file3.txt"; Files.size := 3 |})
    by reflexivity.
  destruct (worker_reads_first_file 3 (fun i => Z.of_nat i) files 2 _ H1 H2)
    as (first & H0 & Hw).
  exists files, {| Files.name := "file3.txt"; Files.size := 3 |}, first.
  split; [split; assumption|]. split; [reflexivity|]. split; [|exact Hw].
  cbn in H0. injection H0 as <-. reflexivity.
Defined.
